(** * FsManager: routing, mount injection, bootstrap and live-view atoms

    A shallow embedding of [src/lib/filesystem/FsManager.ts].

    The [Drive] class and the constants of [defaultFileSystem] are imported
    by the source but are not part of it; the development takes [Drive] as
    an interface (a type class over the state of the backing store behind a
    drive) and the four well-known paths as section variables.  Every
    [async] method is embedded as one sequential function: a rejected
    promise is [Rejected], a resolved one [Ok].

    The JavaScript objects used as dictionaries ([mountedDrives], the three
    atom tables, [items]) are finite maps over their own properties.  The
    mount table is a plain [{}] that the router reads with
    [this.mountedDrives[name]], which also finds the members of
    [Object.prototype]: that read is [Js.get], own properties first, then
    the prototype.  The prototype of the table is the one the field
    initialiser gives it: the constructor's assignment of a mount named
    ["__proto__"] would replace it by the [Drive] object, whose members
    are not part of the source, so the managers here are those
    constructed without a mount of that name. *)

From Stdlib Require Import Ascii.
From stdpp Require Import gmap strings list fin_maps.

Set Warnings "-register-all".
Open Scope string_scope.

(** ** JavaScript string primitives used by the router *)

Module Js.

(** [s.split(sep)] for a one-character separator: never empty, and
    [split "/" "" = [""]]. *)
Fixpoint split (sep : Ascii.ascii) (s : string) : list string :=
  match s with
  | EmptyString => [EmptyString]
  | String c rest =>
      if decide (c = sep) then EmptyString :: split sep rest
      else match split sep rest with
           | [] => [String c EmptyString]
           | seg :: segs => String c seg :: segs
           end
  end.

(** [parts.join(sep)]. *)
Fixpoint join (sep : string) (parts : list string) : string :=
  match parts with
  | [] => ""
  | [p] => p
  | p :: rest => p ++ sep ++ join sep rest
  end.

(** Truthiness of a possibly undefined string: [undefined] and [""] are
    falsy. *)
Definition truthy (v : option string) : bool :=
  match v with
  | Some s => if decide (s = "") then false else true
  | None => false
  end.

(** A string in which the separator does not occur. *)
Fixpoint free_of (sep : Ascii.ascii) (s : string) : Prop :=
  match s with
  | EmptyString => True
  | String c rest => c ≠ sep ∧ free_of sep rest
  end.

(** The property names every plain object inherits from
    [Object.prototype] (ECMAScript, with its annex B). *)
Definition Object_prototype_names : list string :=
  [ "constructor"; "__defineGetter__"; "__defineSetter__"; "hasOwnProperty";
    "__lookupGetter__"; "__lookupSetter__"; "isPrototypeOf";
    "propertyIsEnumerable"; "toString"; "valueOf"; "__proto__";
    "toLocaleString" ].

Definition inherits (key : string) : bool :=
  existsb (String.eqb key) Object_prototype_names.

(** [o[key]] on a plain object [o] whose own properties are the entries
    of the map: an own property, else a member of [Object.prototype] (a
    function, or the prototype itself for ["__proto__"]: truthy in every
    case), else [undefined]. *)
Inductive Property (V : Type) :=
  | Own (v : V)
  | Inherited
  | Undefined.
Arguments Own {V} v.
Arguments Inherited {V}.
Arguments Undefined {V}.

Definition get {V} (o : gmap string V) (key : string) : Property V :=
  match o !! key with
  | Some v => Own v
  | None => if inherits key then Inherited else Undefined
  end.

End Js.

(** ** Values returned by the read operations *)

Inductive Depth := shallow | deep.

Inductive Content :=
  | Text (s : string)
  | Bytes (b : list Byte.byte).

(** [StubFile | DeepFile]. *)
Inductive FileV :=
  | StubFile (name : string)
  | DeepFile (name : string) (content : Content).

(** What an [items] table can hold at run time: files, name-only folder
    placeholders, folders with their own [items], and [null] (the
    non-null assertion [!] of TypeScript is erased, so a [null] read is
    stored as it is). *)
Inductive FsItem :=
  | IFile (f : FileV)
  | IStubFolder (name : string)
  | IFolder (name : string) (items : gmap string FsItem)
  | INull.

(** [ShallowFolder | DeepFolder]: [{ type: "folder", name, items }]. *)
Record Folder := mkFolder {
  folder_name : string;
  folder_items : gmap string FsItem;
}.

Definition item_of_folder (f : Folder) : FsItem :=
  IFolder (folder_name f) (folder_items f).

(** The run-time value of [(await drive.getFolder("/", "deep"))!]. *)
Definition nullable (r : option Folder) : FsItem :=
  match r with
  | Some f => item_of_folder f
  | None => INull
  end.

(** ** Promises *)

Inductive FsError :=
  | NotFound
  | BackingStoreFailure (msg : string)
  | TypeError (msg : string).

(** The [TypeError] of a call of a member that is [undefined]. *)
Definition not_a_function (callee : string) : FsError :=
  TypeError (callee ++ " is not a function").

Inductive result (A : Type) :=
  | Ok (a : A)
  | Rejected (e : FsError).
Arguments Ok {A} a.
Arguments Rejected {A} e.

Definition rbind {A B} (r : result A) (k : A → result B) : result B :=
  match r with
  | Ok a => k a
  | Rejected e => Rejected e
  end.

Notation "'await' x ← r ; k" := (rbind r (λ x, k))
  (at level 100, x name, r at next level, k at level 200, right associativity).

(** ** The Drive interface

    [S] is the state of the backing store a [Drive] wraps.  Reads inspect
    it; writes resolve to the new state. *)

Class Drive (S : Type) := {
  drv_writeFile : string → Content → S → result S;
  drv_createFolder : string → S → result S;
  drv_delete : string → S → result S;
  drv_getItem : string → Depth → S → result (option FsItem);
  drv_getFolder : string → Depth → S → result (option Folder);
  drv_getFile : string → Depth → S → result (option FileV);
  drv_insert : string → FsItem → S → result S;
  drv_move : string → string → S → result S;
}.

(** ** The manager

    [rootDrive] and the values of [mountedDrives] are the states of the
    stores behind the drives; an atom table maps a path to the reference
    of the atom object registered for it. *)

(** Atom objects and intervals are referred to by numbers. *)
Notation "'AtomRef'" := nat (only parsing).

Record FsManager (S : Type) := mkFsManager {
  rootDrive : S;
  mountedDrives : gmap string S;
  shallowAtoms : gmap string AtomRef;
  deepAtoms : gmap string AtomRef;
  fileAtoms : gmap string AtomRef;
}.
Arguments mkFsManager {S}.
Arguments rootDrive {S}.
Arguments mountedDrives {S}.
Arguments shallowAtoms {S}.
Arguments deepAtoms {S}.
Arguments fileAtoms {S}.

(** [Object.keys] and [Object.entries] of a dictionary, in the order of
    the finite map.  The source enumerates in insertion order; the order
    decides only which of several rejected reads is seen first. *)
Definition Object_entries {V} (o : gmap string V) : list (string * V) :=
  map_to_list o.
Definition Object_keys {V} (o : gmap string V) : list string :=
  (Object_entries o).*1.

(** What [getMountedDriveForPath] returns: a [Drive] of the table, with
    the name it is mounted under so that a write can be put back; a member
    of [Object.prototype], which is truthy and has none of the methods of
    a [Drive]; or [null]. *)
Inductive MountedDrive (S : Type) :=
  | ADrive (name : string) (drive : S)
  | NotADrive (name : string)
  | Null.
Arguments ADrive {S} name drive.
Arguments NotADrive {S} name.
Arguments Null {S}.

Section Manager.
Context {S : Type} `{Drive S}.

(** The store behind the root drive, or behind a mounted drive, is
    replaced by the state a write resolved to.  The record keeps one store
    for the root and one for each mount name, so it stands for a manager
    whose directory handles are pairwise disjoint.  The constructor does
    not check this: a manager given one directory under two names, where
    a write through one name shows through the other, is outside the
    model. *)
Definition with_root (this : FsManager S) (d : S) : FsManager S :=
  mkFsManager d (mountedDrives this)
    (shallowAtoms this) (deepAtoms this) (fileAtoms this).

Definition with_mounted (this : FsManager S) (name : string) (d : S)
  : FsManager S :=
  mkFsManager (rootDrive this) (<[name := d]> (mountedDrives this))
    (shallowAtoms this) (deepAtoms this) (fileAtoms this).

(** [this.mountedDrives[parts[2]] || null] behind the guard
    [parts[1] === "mnt" && parts[2]]. *)
Definition getMountedDriveForPath (this : FsManager S) (path : string)
  : MountedDrive S :=
  let parts := Js.split "/"%char path in
  if bool_decide (parts !! 1 = Some "mnt") && Js.truthy (parts !! 2) then
    match parts !! 2 with
    | Some name =>
        match Js.get (mountedDrives this) name with
        | Js.Own drive => ADrive name drive
        | Js.Inherited => NotADrive name
        | Js.Undefined => Null
        end
    | None => Null
    end
  else Null.

Definition getRelativePath (path : string) : string :=
  let parts := Js.split "/"%char path in
  "/" ++ Js.join "/" (drop 3 parts).

Definition writeFile (path : string) (content : Content)
    (this : FsManager S) : result (FsManager S) :=
  match getMountedDriveForPath this path with
  | ADrive name mountedDrive =>
      let relativePath := getRelativePath path in
      await d ← drv_writeFile relativePath content mountedDrive;
      Ok (with_mounted this name d)
  | NotADrive _ =>
      Rejected (not_a_function "mountedDrive.writeFile")
  | Null =>
      await d ← drv_writeFile path content (rootDrive this);
      Ok (with_root this d)
  end.

Definition createFolder (path : string) (this : FsManager S)
  : result (FsManager S) :=
  match getMountedDriveForPath this path with
  | ADrive name mountedDrive =>
      let relativePath := getRelativePath path in
      await d ← drv_createFolder relativePath mountedDrive;
      Ok (with_mounted this name d)
  | NotADrive _ =>
      Rejected (not_a_function "mountedDrive.createFolder")
  | Null =>
      await d ← drv_createFolder path (rootDrive this);
      Ok (with_root this d)
  end.

Definition delete_ (path : string) (this : FsManager S)
  : result (FsManager S) :=
  match getMountedDriveForPath this path with
  | ADrive name mountedDrive =>
      let relativePath := getRelativePath path in
      await d ← drv_delete relativePath mountedDrive;
      Ok (with_mounted this name d)
  | NotADrive _ =>
      Rejected (not_a_function "mountedDrive.delete")
  | Null =>
      await d ← drv_delete path (rootDrive this);
      Ok (with_root this d)
  end.

Definition getItem (path : string) (depth : Depth) (this : FsManager S)
  : result (option FsItem) :=
  match getMountedDriveForPath this path with
  | ADrive _ mountedDrive =>
      let relativePath := getRelativePath path in
      drv_getItem relativePath depth mountedDrive
  | NotADrive _ =>
      Rejected (not_a_function "mountedDrive.getItem")
  | Null => drv_getItem path depth (rootDrive this)
  end.

(** The shallow branch of the injection:
    [Object.fromEntries(Object.keys(mountedDrives).map(name => [name, {type: "folder", name}]))]. *)
Definition shallow_mnt_items (drives : gmap string S)
  : gmap string FsItem :=
  list_to_map ((λ name, (name, IStubFolder name)) <$> Object_keys drives).

(** The deep branch: the [for ... of Object.entries(mountedDrives)] loop,
    [items] being the table filled so far. *)
Fixpoint deep_mnt_items (entries : list (string * S))
    (items : gmap string FsItem) : result (gmap string FsItem) :=
  match entries with
  | [] => Ok items
  | (name, drive) :: rest =>
      await folder ← drv_getFolder "/" deep drive;
      deep_mnt_items rest (<[name := nullable folder]> items)
  end.

Definition getFolder (path : string) (depth : Depth) (this : FsManager S)
  : result (option Folder) :=
  if decide (path = "/") then
    await rootFolder ← drv_getFolder path depth (rootDrive this);
    match rootFolder with
    | Some rf =>
        if decide (0 < length (Object_keys (mountedDrives this))) then
          await items ←
            match depth with
            | deep => deep_mnt_items (Object_entries (mountedDrives this)) ∅
            | shallow => Ok (shallow_mnt_items (mountedDrives this))
            end;
          let mntFolder := IFolder "mnt" items in
          Ok (Some (mkFolder (folder_name rf)
                      (<["mnt" := mntFolder]> (folder_items rf))))
        else Ok (Some rf)
    | None => Ok None
    end
  else
    match getMountedDriveForPath this path with
    | ADrive _ mountedDrive =>
        let relativePath := getRelativePath path in
        drv_getFolder relativePath depth mountedDrive
    | NotADrive _ =>
        Rejected (not_a_function "mountedDrive.getFolder")
    | Null => drv_getFolder path depth (rootDrive this)
    end.

Definition getFile (path : string) (depth : Depth) (this : FsManager S)
  : result (option FileV) :=
  match getMountedDriveForPath this path with
  | ADrive _ mountedDrive =>
      let relativePath := getRelativePath path in
      drv_getFile relativePath depth mountedDrive
  | NotADrive _ =>
      Rejected (not_a_function "mountedDrive.getFile")
  | Null => drv_getFile path depth (rootDrive this)
  end.

Definition insert_ (path : string) (item : FsItem) (this : FsManager S)
  : result (FsManager S) :=
  match getMountedDriveForPath this path with
  | ADrive name mountedDrive =>
      let relativePath := getRelativePath path in
      await d ← drv_insert relativePath item mountedDrive;
      Ok (with_mounted this name d)
  | NotADrive _ =>
      Rejected (not_a_function "mountedDrive.insert")
  | Null =>
      await d ← drv_insert path item (rootDrive this);
      Ok (with_root this d)
  end.

Definition move (oldPath newPath : string) (this : FsManager S)
  : result (FsManager S) :=
  match getMountedDriveForPath this oldPath with
  | ADrive name mountedDrive =>
      let relativeOldPath := getRelativePath oldPath in
      let relativeNewPath := getRelativePath newPath in
      await d ← drv_move relativeOldPath relativeNewPath mountedDrive;
      Ok (with_mounted this name d)
  | NotADrive _ =>
      Rejected (not_a_function "mountedDrive.move")
  | Null =>
      await d ← drv_move oldPath newPath (rootDrive this);
      Ok (with_root this d)
  end.

End Manager.

(** ** Bootstrap

    The four paths are the constants imported from [defaultFileSystem]. *)

(** The mutating calls a method issued on the manager, in order. *)
Inductive Call :=
  | CallCreateFolder (path : string)
  | CallWriteFile (path : string) (content : Content).

Section Bootstrap.
Context {S : Type} `{Drive S}.
Variables SYSTEM_PATH PROGRAMS_PATH USER_PATH REGISTRY_PATH : string.

(** The body of [for (const dir of defaultDirs)], iterated. *)
Fixpoint setupDefaultDirectories_loop (dirs : list string)
    (this : FsManager S) (calls : list Call)
  : result (FsManager S * list Call) :=
  match dirs with
  | [] => Ok (this, calls)
  | dir :: rest =>
      await exists_ ← getFolder dir shallow this;
      match exists_ with
      | None =>
          await this' ← createFolder dir this;
          setupDefaultDirectories_loop rest this'
            (calls ++ [CallCreateFolder dir])%list
      | Some _ => setupDefaultDirectories_loop rest this calls
      end
  end.

Definition setupDefaultDirectories (this : FsManager S)
  : result (FsManager S * list Call) :=
  let defaultDirs := [SYSTEM_PATH; PROGRAMS_PATH; USER_PATH] in
  await st ← setupDefaultDirectories_loop defaultDirs this [];
  let '(this1, calls) := st in
  await registryExists ← getFile REGISTRY_PATH shallow this1;
  match registryExists with
  | None =>
      await this2 ← writeFile REGISTRY_PATH (Text "{}") this1;
      Ok (this2, (calls ++ [CallWriteFile REGISTRY_PATH (Text "{}")])%list)
  | Some _ => Ok (this1, calls)
  end.

Definition hasSystemData (this : FsManager S) : result bool :=
  await system ← getFolder SYSTEM_PATH shallow this;
  Ok (match system with Some _ => true | None => false end).

End Bootstrap.

(** ** Live-view atoms

    [getFolderAtom] and [getFileAtom] create atom objects and hang an
    [onMount] hook on them.  The hook and its clean-up run in the
    environment: the subscription store calls [onMount] when an atom gets
    its first subscriber and the returned clean-up when it loses its last
    one; [setInterval] registers a callback that the host fires every
    [delay] milliseconds until [clearInterval].  The clock counts
    milliseconds. *)

Inductive AtomKind :=
  | FolderAtom (depth : Depth)
  | FileAtom.

(** An atom object: the variables its closures captured. *)
Record Atom := mkAtom {
  atom_path : string;
  atom_kind : AtomKind;
}.

Notation "'IntervalRef'" := nat (only parsing).

Record Interval := mkInterval {
  iv_atom : AtomRef;        (* the atom whose [set()] the callback calls *)
  iv_delay : N;             (* second argument of [setInterval] *)
  iv_start : N;             (* clock at [setInterval] *)
  iv_due : N;               (* clock of the next firing *)
  iv_fired : list N;        (* clocks of the firings so far *)
}.

Record Runtime := mkRuntime {
  atoms : gmap AtomRef Atom;
  subscribed : gmap AtomRef (nat * IntervalRef);
  intervals : gmap IntervalRef Interval;
  next_interval : IntervalRef;
  now : N;
}.

Definition runtime0 : Runtime := mkRuntime ∅ ∅ ∅ 0 0%N.

Section Atoms.
Context {S : Type}.

Definition World : Type := FsManager S * Runtime.

Definition atomsMap_of (kind : AtomKind) (this : FsManager S)
  : gmap string AtomRef :=
  match kind with
  | FolderAtom shallow => shallowAtoms this
  | FolderAtom deep => deepAtoms this
  | FileAtom => fileAtoms this
  end.

Definition with_atomsMap (kind : AtomKind) (this : FsManager S)
    (table : gmap string AtomRef) : FsManager S :=
  match kind with
  | FolderAtom shallow =>
      mkFsManager (rootDrive this) (mountedDrives this)
        table (deepAtoms this) (fileAtoms this)
  | FolderAtom deep =>
      mkFsManager (rootDrive this) (mountedDrives this)
        (shallowAtoms this) table (fileAtoms this)
  | FileAtom =>
      mkFsManager (rootDrive this) (mountedDrives this)
        (shallowAtoms this) (deepAtoms this) table
  end.

(** [atomWithRefresh(...)]: a new atom object, whose closures hold
    [path] and the table the atom is registered in. *)
Definition atomWithRefresh (kind : AtomKind) (path : string) (rt : Runtime)
  : AtomRef * Runtime :=
  let atom := fresh (dom (atoms rt)) in
  (atom,
   mkRuntime (<[atom := mkAtom path kind]> (atoms rt))
     (subscribed rt) (intervals rt) (next_interval rt) (now rt)).

(** The getters.  The tables are read at their own keys: the getters
    stand for the calls at a [path] that is not the name of a member of
    [Object.prototype] ([Js.inherits path = false]).  At such a name the
    test [!atomsMap[path]] of the source finds the member, so that no
    atom is made, no table changes and the member itself is returned. *)
Definition getFolderAtom (path : string) (depth : Depth) (w : World)
  : AtomRef * World :=
  let '(this, rt) := w in
  let atomsMap :=
    match depth with
    | shallow => shallowAtoms this
    | deep => deepAtoms this
    end in
  match atomsMap !! path with
  | None =>
      let '(atom, rt') := atomWithRefresh (FolderAtom depth) path rt in
      (atom,
       (with_atomsMap (FolderAtom depth) this (<[path := atom]> atomsMap),
        rt'))
  | Some atom => (atom, w)
  end.

Definition getFileAtom (path : string) (w : World) : AtomRef * World :=
  let '(this, rt) := w in
  match fileAtoms this !! path with
  | None =>
      let '(atom, rt') := atomWithRefresh FileAtom path rt in
      (atom,
       (with_atomsMap FileAtom this (<[path := atom]> (fileAtoms this)),
        rt'))
  | Some atom => (atom, w)
  end.

(** [atom.onMount]: [setInterval(() => set(), 500)]. *)
Definition onMount (atom : AtomRef) (rt : Runtime)
  : IntervalRef * Runtime :=
  let interval := next_interval rt in
  (interval,
   mkRuntime (atoms rt) (subscribed rt)
     (<[interval := mkInterval atom 500%N (now rt) (now rt + 500)%N []]>
        (intervals rt))
     (Datatypes.S interval) (now rt)).

(** The clean-up [onMount] returned:
    [clearInterval(interval); delete atomsMap[path]]. *)
Definition onUnmount (atom : AtomRef) (interval : IntervalRef) (w : World)
  : World :=
  let '(this, rt) := w in
  let rt' := mkRuntime (atoms rt) (subscribed rt)
               (delete interval (intervals rt)) (next_interval rt) (now rt) in
  match atoms rt !! atom with
  | Some a =>
      (with_atomsMap (atom_kind a) this
         (delete (atom_path a) (atomsMap_of (atom_kind a) this)), rt')
  | None => (this, rt')
  end.

(** A consumer subscribes to an atom. *)
Definition subscribe (atom : AtomRef) (w : World) : World :=
  let '(this, rt) := w in
  match subscribed rt !! atom with
  | Some (n, interval) =>
      (this, mkRuntime (atoms rt)
               (<[atom := (Datatypes.S n, interval)]> (subscribed rt))
               (intervals rt) (next_interval rt) (now rt))
  | None =>
      let '(interval, rt1) := onMount atom rt in
      (this, mkRuntime (atoms rt1)
               (<[atom := (1, interval)]> (subscribed rt1))
               (intervals rt1) (next_interval rt1) (now rt1))
  end.

(** A consumer drops its subscription. *)
Definition unsubscribe (atom : AtomRef) (w : World) : World :=
  let '(this, rt) := w in
  match subscribed rt !! atom with
  | Some (Datatypes.S (Datatypes.S n), interval) =>
      (this, mkRuntime (atoms rt)
               (<[atom := (Datatypes.S n, interval)]> (subscribed rt))
               (intervals rt) (next_interval rt) (now rt))
  | Some (_, interval) =>
      onUnmount atom interval
        (this, mkRuntime (atoms rt) (delete atom (subscribed rt))
                 (intervals rt) (next_interval rt) (now rt))
  | None => w
  end.

(** One millisecond passes; every interval that is due fires. *)
Definition fire (clock : N) (iv : Interval) : Interval :=
  if decide (iv_due iv = clock) then
    mkInterval (iv_atom iv) (iv_delay iv) (iv_start iv)
      (iv_due iv + iv_delay iv)%N (iv_fired iv ++ [clock])%list
  else iv.

Definition tick (w : World) : World :=
  let '(this, rt) := w in
  let clock := (now rt + 1)%N in
  (this, mkRuntime (atoms rt) (subscribed rt)
           (fire clock <$> intervals rt) (next_interval rt) clock).

(** The public interface of the live-view layer, as the consumers and
    the host drive it. *)
Inductive Event :=
  | EvGetFolderAtom (path : string) (depth : Depth)
  | EvGetFileAtom (path : string)
  | EvSubscribe (atom : AtomRef)
  | EvUnsubscribe (atom : AtomRef)
  | EvTick.

Definition step (ev : Event) (w : World) : World :=
  match ev with
  | EvGetFolderAtom path depth => (getFolderAtom path depth w).2
  | EvGetFileAtom path => (getFileAtom path w).2
  | EvSubscribe atom => subscribe atom w
  | EvUnsubscribe atom => unsubscribe atom w
  | EvTick => tick w
  end.

Definition run (evs : list Event) (w : World) : World :=
  foldl (λ w ev, step ev w) w evs.

End Atoms.

(** ** An in-memory drive *)

Module Mem.

(** Modelled from the spec: the [Drive] class ([./Drive] is imported by
    the source and is not part of it), over a store that is a tree in
    memory.  Section 4.2: [createFolder] makes an empty folder, is
    idempotent on an existing one and makes the missing parents, as
    [writeFile] does; a read of a path that holds nothing resolves to
    [null]; a deep read expands every folder below the path; [delete] of a
    path that holds nothing is rejected with [NotFound]. *)
Inductive Node :=
  | NFile (content : Content)
  | NDir (children : gmap string Node).

Definition empty : Node := NDir ∅.

Definition segments (path : string) : list string :=
  filter (λ seg, seg ≠ "") (Js.split "/"%char path).

Definition base_name (path : string) : string :=
  default "/" (last (segments path)).

Fixpoint lookup_node (segs : list string) (n : Node) : option Node :=
  match segs with
  | [] => Some n
  | seg :: rest =>
      match n with
      | NDir children => child ← children !! seg; lookup_node rest child
      | NFile _ => None
      end
  end.

Definition shallow_item (name : string) (n : Node) : FsItem :=
  match n with
  | NFile _ => IFile (StubFile name)
  | NDir _ => IStubFolder name
  end.

Fixpoint deep_item (n : Node) (name : string) : FsItem :=
  match n with
  | NFile content => IFile (DeepFile name content)
  | NDir children =>
      IFolder name (map_imap (λ k item, Some (item k)) (deep_item <$> children))
  end.

Definition listing (depth : Depth) (children : gmap string Node)
  : gmap string FsItem :=
  match depth with
  | shallow => map_imap (λ k n, Some (shallow_item k n)) children
  | deep => map_imap (λ k n, Some (deep_item n k)) children
  end.

Definition file_value (depth : Depth) (name : string) (content : Content)
  : FileV :=
  match depth with
  | shallow => StubFile name
  | deep => DeepFile name content
  end.

Definition getFolder (path : string) (depth : Depth) (s : Node)
  : result (option Folder) :=
  match lookup_node (segments path) s with
  | Some (NDir children) =>
      Ok (Some (mkFolder (base_name path) (listing depth children)))
  | _ => Ok None
  end.

Definition getFile (path : string) (depth : Depth) (s : Node)
  : result (option FileV) :=
  match lookup_node (segments path) s with
  | Some (NFile content) => Ok (Some (file_value depth (base_name path) content))
  | _ => Ok None
  end.

Definition getItem (path : string) (depth : Depth) (s : Node)
  : result (option FsItem) :=
  match lookup_node (segments path) s with
  | Some (NFile content) =>
      Ok (Some (IFile (file_value depth (base_name path) content)))
  | Some (NDir children) =>
      Ok (Some (IFolder (base_name path) (listing depth children)))
  | None => Ok None
  end.

(** Puts [new] at [segs], making the missing folders on the way. *)
Fixpoint put (segs : list string) (new : Node) (n : Node) : result Node :=
  match segs with
  | [] => Ok new
  | seg :: rest =>
      match n with
      | NDir children =>
          await child ← put rest new (default empty (children !! seg));
          Ok (NDir (<[seg := child]> children))
      | NFile _ => Rejected (BackingStoreFailure "not a folder")
      end
  end.

Fixpoint mkdirp (segs : list string) (n : Node) : result Node :=
  match n with
  | NFile _ => Rejected (BackingStoreFailure "not a folder")
  | NDir children =>
      match segs with
      | [] => Ok n
      | seg :: rest =>
          await child ← mkdirp rest (default empty (children !! seg));
          Ok (NDir (<[seg := child]> children))
      end
  end.

Fixpoint remove (segs : list string) (n : Node) : result Node :=
  match segs, n with
  | [], _ => Rejected (BackingStoreFailure "the root cannot be deleted")
  | _, NFile _ => Rejected NotFound
  | seg :: rest, NDir children =>
      match children !! seg with
      | None => Rejected NotFound
      | Some child =>
          match rest with
          | [] => Ok (NDir (delete seg children))
          | _ =>
              await child' ← remove rest child;
              Ok (NDir (<[seg := child']> children))
          end
      end
  end.

Fixpoint node_of_item (item : FsItem) : Node :=
  match item with
  | IFile (StubFile _) => NFile (Text "")
  | IFile (DeepFile _ content) => NFile content
  | IStubFolder _ => empty
  | IFolder _ items => NDir (node_of_item <$> items)
  | INull => empty
  end.

Definition createFolder (path : string) (s : Node) : result Node :=
  mkdirp (segments path) s.

Definition writeFile (path : string) (content : Content) (s : Node)
  : result Node :=
  match lookup_node (segments path) s with
  | Some (NDir _) => Rejected (BackingStoreFailure "is a folder")
  | _ => put (segments path) (NFile content) s
  end.

Definition delete_ (path : string) (s : Node) : result Node :=
  remove (segments path) s.

Definition insert_ (path : string) (item : FsItem) (s : Node) : result Node :=
  match segments path with
  | [] => Rejected (BackingStoreFailure "is a folder")
  | segs => put segs (node_of_item item) s
  end.

Definition move (oldPath newPath : string) (s : Node) : result Node :=
  match lookup_node (segments oldPath) s with
  | None => Rejected NotFound
  | Some n =>
      await s1 ← remove (segments oldPath) s;
      put (segments newPath) n s1
  end.

#[global] Instance drive : Drive Node := {
  drv_writeFile := writeFile;
  drv_createFolder := createFolder;
  drv_delete := delete_;
  drv_getItem := getItem;
  drv_getFolder := getFolder;
  drv_getFile := getFile;
  drv_insert := insert_;
  drv_move := move;
}.

(** [segs] leads to a folder of [n]. *)
Definition is_dir (segs : list string) (n : Node) : Prop :=
  ∃ children, lookup_node segs n = Some (NDir children).

(** A manager over in-memory drives, with empty atom tables. *)
Definition manager (root : Node) (mounted : gmap string Node)
  : FsManager Node :=
  mkFsManager root mounted ∅ ∅ ∅.

End Mem.

(** ** Delegation *)

Section Delegation.
Context {S : Type} `{Drive S}.

(** Every path operation of the manager at [path] is that operation of
    [drive] at [rel]; [put] is where the state a write resolved to is
    stored.  The folder read of ["/"] has its own branch in [getFolder]
    and is stated apart. *)
Definition delegates (this : FsManager S) (path : string)
    (drive : S) (put : S → FsManager S) (rel : string) : Prop :=
  (∀ content, writeFile path content this
              = (await d ← drv_writeFile rel content drive; Ok (put d)))
  ∧ createFolder path this
    = (await d ← drv_createFolder rel drive; Ok (put d))
  ∧ delete_ path this = (await d ← drv_delete rel drive; Ok (put d))
  ∧ (∀ item, insert_ path item this
             = (await d ← drv_insert rel item drive; Ok (put d)))
  ∧ (∀ depth, getItem path depth this = drv_getItem rel depth drive)
  ∧ (∀ depth, getFile path depth this = drv_getFile rel depth drive)
  ∧ (∀ depth, path ≠ "/" →
              getFolder path depth this = drv_getFolder rel depth drive).

(** The mount prefix of a path: segment 1 is the keyword and segment 2
    is a non-empty name in the mount table. *)
Definition mount_prefix (this : FsManager S) (path : string)
    (name : string) (drive : S) : Prop :=
  let parts := Js.split "/"%char path in
  parts !! 1 = Some "mnt" ∧ parts !! 2 = Some name ∧ name ≠ ""
  ∧ mountedDrives this !! name = Some drive.

(** A path whose segment 1 is the keyword and whose segment 2 is not
    mounted but is the name of a member of [Object.prototype]. *)
Definition prototype_prefix (this : FsManager S) (path : string)
    (name : string) : Prop :=
  let parts := Js.split "/"%char path in
  parts !! 1 = Some "mnt" ∧ parts !! 2 = Some name
  ∧ mountedDrives this !! name = None ∧ Js.inherits name = true.


End Delegation.

(** ** Statements about the root listing *)

Section RootListing.
Context {S : Type} `{Drive S}.

(** The drive and the path an operation on [path] is resolved to;
    [None] when the mount table answers with a member of
    [Object.prototype]. *)
Definition resolve (this : FsManager S) (path : string)
  : option (S * string) :=
  match getMountedDriveForPath this path with
  | ADrive _ drive => Some (drive, getRelativePath path)
  | NotADrive _ => None
  | Null => Some (rootDrive this, path)
  end.



End RootListing.

(** ** Statements about the bootstrap *)

(** What the bootstrap needs of a drive: a folder that was created, or a
    file that was written, is there at the next shallow read, and creating
    a folder or writing a file removes no folder. *)
Class DriveLaws (S : Type) `{Drive S} : Prop := {
  created_folder_exists path s s' :
    drv_createFolder path s = Ok s' →
    ∃ f, drv_getFolder path shallow s' = Ok (Some f);
  written_file_exists path content s s' :
    drv_writeFile path content s = Ok s' →
    ∃ f, drv_getFile path shallow s' = Ok (Some f);
  createFolder_keeps_folders path other s s' f :
    drv_getFolder other shallow s = Ok (Some f) →
    drv_createFolder path s = Ok s' →
    ∃ f', drv_getFolder other shallow s' = Ok (Some f');
  writeFile_keeps_folders path content other s s' f :
    drv_getFolder other shallow s = Ok (Some f) →
    drv_writeFile path content s = Ok s' →
    ∃ f', drv_getFolder other shallow s' = Ok (Some f');
}.

Section BootstrapStatements.
Context {S : Type} `{Drive S}.

(** Where the state a write at [path] resolved to is put back (no
    write is made when the path resolves to no drive). *)
Definition put_back (this : FsManager S) (path : string)
  : S → FsManager S :=
  match getMountedDriveForPath this path with
  | ADrive name _ => with_mounted this name
  | NotADrive _ | Null => with_root this
  end.

Definition folder_exists (path : string) (this : FsManager S) : Prop :=
  ∃ f, getFolder path shallow this = Ok (Some f).

Definition file_exists (path : string) (this : FsManager S) : Prop :=
  ∃ f, getFile path shallow this = Ok (Some f).

(** One well-known folder is seen to: it is there and nothing is done,
    or the shallow read gave [null] and it is created. *)
Definition folder_ensured (dir : string) (this this' : FsManager S)
    (calls : list Call) : Prop :=
  (folder_exists dir this ∧ this' = this ∧ calls = [])
  ∨ (getFolder dir shallow this = Ok None
     ∧ createFolder dir this = Ok this'
     ∧ calls = [CallCreateFolder dir]).

(** The registry file is seen to: it is there and nothing is done, or
    the shallow read gave [null] and it is written with ["{}"]. *)
Definition registry_ensured (file : string) (this this' : FsManager S)
    (calls : list Call) : Prop :=
  (file_exists file this ∧ this' = this ∧ calls = [])
  ∨ (getFile file shallow this = Ok None
     ∧ writeFile file (Text "{}") this = Ok this'
     ∧ calls = [CallWriteFile file (Text "{}")]).

End BootstrapStatements.

(** ** Statements about the live-view atoms *)

#[global] Instance Depth_eq_dec : EqDecision Depth.
Proof. solve_decision. Defined.

#[global] Instance AtomKind_eq_dec : EqDecision AtomKind.
Proof. solve_decision. Defined.

Section AtomStatements.
Context {S : Type}.
Local Open Scope nat_scope.

(** [getFolderAtom] and [getFileAtom] by the kind of the atom. *)
Definition get_atom (kind : AtomKind) (path : string) (w : @World S)
  : AtomRef * World :=
  match kind with
  | FolderAtom depth => getFolderAtom path depth w
  | FileAtom => getFileAtom path w
  end.

(** A manager as its constructor leaves it, in a runtime where nothing
    has happened yet. *)
Definition initial (w : @World S) : Prop :=
  shallowAtoms w.1 = ∅ ∧ deepAtoms w.1 = ∅ ∧ fileAtoms w.1 = ∅
  ∧ w.2 = runtime0.

Definition reachable (w : @World S) : Prop :=
  ∃ w0 evs, initial w0 ∧ w = run evs w0.

(** The interval fired at every multiple of its delay since it was
    set, and at no other time. *)
Definition fires_on_period (clock : N) (i : Interval) : Prop :=
  let fired := ((clock - iv_start i) / iv_delay i)%N in
  (iv_start i ≤ clock)%N
  ∧ iv_fired i
    = (λ k, iv_start i + iv_delay i * N.of_nat k)%N
        <$> seq 1 (N.to_nat fired)
  ∧ iv_due i = (iv_start i + iv_delay i * (fired + 1))%N.

(** The atom is the one registered under the key it was made for. *)
Definition registered (a : AtomRef) (w : @World S) : Prop :=
  ∃ path kind, atoms w.2 !! a = Some (mkAtom path kind)
               ∧ atomsMap_of kind w.1 !! path = Some a.

(** Consumers that subscribe only to atoms that are registered at that
    moment, as a consumer does that subscribes to what the getter has just
    returned. *)
Fixpoint disciplined (evs : list Event) (w : @World S) : Prop :=
  match evs with
  | [] => True
  | ev :: rest =>
      match ev with
      | EvSubscribe a => registered a w
      | _ => True
      end
      ∧ disciplined rest (step ev w)
  end.

(** Every atom with subscribers is registered. *)
Definition subscribers_registered (w : @World S) : Prop :=
  ∀ a n iv, subscribed w.2 !! a = Some (n, iv) → registered a w.

(** The invariant of the live-view layer. *)
Record wf (w : @World S) : Prop := {
  wf_tables kind path a :
    atomsMap_of kind w.1 !! path = Some a →
    atoms w.2 !! a = Some (mkAtom path kind);
  wf_subscribed a n iv :
    subscribed w.2 !! a = Some (n, iv) →
    0 < n ∧ ∃ i, intervals w.2 !! iv = Some i ∧ iv_atom i = a;
  wf_intervals iv i :
    intervals w.2 !! iv = Some i →
    iv < next_interval w.2
    ∧ ∃ n, subscribed w.2 !! iv_atom i = Some (n, iv);
  wf_period iv i :
    intervals w.2 !! iv = Some i →
    iv_delay i = 500%N
    ∧ (iv_start i + 500 * N.of_nat (length (iv_fired i)) ≤ now w.2)%N
    ∧ (now w.2 < iv_due i)%N
    ∧ iv_due i
      = (iv_start i + 500 * (N.of_nat (length (iv_fired i)) + 1))%N
    ∧ iv_fired i
      = (λ k, iv_start i + 500 * N.of_nat k)%N
          <$> seq 1 (length (iv_fired i));
}.

End AtomStatements.

(** ** Worked inputs

    Managers over in-memory drives on which the properties are run. *)

Module RootExamples.
Import Mem.

(** A root store that holds a file ["mnt"] of its own and a folder. *)
Definition root : Node :=
  NDir {[ "mnt" := NFile (Text "real"); "user" := NDir ∅ ]}.

Definition x : Node := NDir {[ "a.txt" := NFile (Text "hi") ]}.

(** A drive whose root is not a folder: its root read resolves to [null]. *)
Definition gone : Node := NFile (Text "").

Definition this : FsManager Node := manager root {[ "X" := x; "Z" := gone ]}.



End RootExamples.

Module BootstrapExamples.

Definition SYSTEM_PATH := "/system".
Definition PROGRAMS_PATH := "/system/programs".
Definition USER_PATH := "/user".
Definition REGISTRY_PATH := "/system/registry.reg".

Definition setup :=
  setupDefaultDirectories (S := Mem.Node)
    SYSTEM_PATH PROGRAMS_PATH USER_PATH REGISTRY_PATH.

(** First run on a store that has the user folder already. *)
Definition fresh : FsManager Mem.Node :=
  Mem.manager (Mem.NDir {[ "user" := Mem.NDir ∅ ]}) {[ "X" := Mem.empty ]}.

Definition booted : FsManager Mem.Node :=
  Mem.manager
    (Mem.NDir {[ "user" := Mem.NDir ∅;
                 "system" := Mem.NDir
                   {[ "programs" := Mem.NDir ∅;
                      "registry.reg" := Mem.NFile (Text "{}") ]} ]})
    {[ "X" := Mem.empty ]}.

End BootstrapExamples.

Module AtomExamples.

Definition w0 : @World Mem.Node := (Mem.manager Mem.empty ∅, runtime0).

(** Two consumers of the shallow listing of ["/docs"], one of which has
    left again. *)
Definition two_then_one : list Event :=
  [EvGetFolderAtom "/docs" shallow; EvSubscribe 0;
   EvGetFolderAtom "/docs" shallow; EvSubscribe 0;
   EvUnsubscribe 0].

Definition one_left : @World Mem.Node := run two_then_one w0.

(** A consumer that kept its atom: it subscribes, leaves, and subscribes
    again to the atom it holds; then a second consumer asks for the same
    key and subscribes to what it gets. *)
Definition kept_atom : list Event :=
  [EvGetFolderAtom "/docs" shallow; EvSubscribe 0; EvUnsubscribe 0;
   EvSubscribe 0].

Definition stale : @World Mem.Node :=
  run (kept_atom ++ [EvGetFolderAtom "/docs" shallow; EvSubscribe 1]) w0.

(** A consumer of the file ["/a.txt"], 1200 milliseconds on. *)
Definition later : @World Mem.Node :=
  run ([EvGetFileAtom "/a.txt"; EvSubscribe 0] ++ replicate 1200 EvTick) w0.

End AtomExamples.

(** ** A drive that can be offline *)

Module Flaky.

(** Modelled from the spec: a [Drive] whose storage medium can fail
    (section 7, [BackingStoreFailure]): an in-memory drive that is online,
    or a drive that rejects every operation. *)
Inductive Store :=
  | Online (s : Mem.Node)
  | Offline.

Definition offline {A} : result A :=
  Rejected (BackingStoreFailure "offline").

Definition write (op : Mem.Node → result Mem.Node) (s : Store)
  : result Store :=
  match s with
  | Online n => await n' ← op n; Ok (Online n')
  | Offline => offline
  end.

Definition read {A} (op : Mem.Node → result A) (s : Store) : result A :=
  match s with
  | Online n => op n
  | Offline => offline
  end.

#[global] Instance drive : Drive Store := {
  drv_writeFile path content := write (Mem.writeFile path content);
  drv_createFolder path := write (Mem.createFolder path);
  drv_delete path := write (Mem.delete_ path);
  drv_getItem path depth := read (Mem.getItem path depth);
  drv_getFolder path depth := read (Mem.getFolder path depth);
  drv_getFile path depth := read (Mem.getFile path depth);
  drv_insert path item := write (Mem.insert_ path item);
  drv_move oldPath newPath := write (Mem.move oldPath newPath);
}.

Definition manager (root : Store) (mounted : gmap string Store)
  : FsManager Store :=
  mkFsManager root mounted ∅ ∅ ∅.

End Flaky.

Module WriteExamples.
Import Mem.




End WriteExamples.

(** ** The window reducer

    The state of an on-screen window and its reducer, from the source file
    that defines [windowAtomFamily].  The source's [number] is a type with
    the four operations the reducer uses; nothing is assumed of them
    unless a statement says so. *)

Module Window.

Class Number (R : Type) := {
  lit : Z → R;                 (* a numeric literal *)
  plus : R → R → R;            (* [a + b] *)
  minus : R → R → R;           (* [a - b] *)
  opp : R → R;                 (* [-a] *)
  Math_max : R → R → R;
}.

(** Integer pixel values: the doubles of the source that hold an
    integer.  A double holds every integer of magnitude at most 2^53, and
    a sum, a difference or a maximum of two such integers is computed
    exactly when its value is again of magnitude at most 2^53; beyond
    that the source rounds where [Z] does not.  A statement on [Z] about
    the value of a sum carries the bound [safe_integer] on what is
    added. *)
#[global] Instance Z_number : Number Z := {
  lit z := z;
  plus := Z.add;
  minus := Z.sub;
  opp := Z.opp;
  Math_max := Z.max;
}.

Inductive Program :=
  | ProgramWelcome
  | ProgramRun
  | ProgramIframe (src : string).

Inductive Status := maximized | minimized | normal.

Inductive Side :=
  | SideTop | SideBottom | SideLeft | SideRight
  | SideTopLeft | SideTopRight | SideBottomLeft | SideBottomRight.

(** [number | "auto"]. *)
Inductive Height (R : Type) :=
  | auto
  | px (h : R).
Arguments auto {R}.
Arguments px {R} h.

Record Pos (R : Type) := mkPos { x : R; y : R }.
Arguments mkPos {R}.
Arguments x {R}.
Arguments y {R}.

Record Size (R : Type) := mkSize { width : R; height : Height R }.
Arguments mkSize {R}.
Arguments width {R}.
Arguments height {R}.

Record WindowState (R : Type) := mkWindowState {
  status : Status;
  pos : Pos R;
  size : Size R;
  title : string;
  icon : option string;
  program : Program;
  id : string;
}.
Arguments mkWindowState {R}.
Arguments status {R}.
Arguments pos {R}.
Arguments size {R}.
Arguments title {R}.
Arguments icon {R}.
Arguments program {R}.
Arguments id {R}.

Inductive WindowAction (R : Type) :=
  | TOGGLE_MAXIMIZE
  | TOGGLE_MINIMIZE
  | RESTORE
  | MOVE (dx dy : R)
  | RESIZE (side : Side) (dx dy : R)
  | INIT (title : string) (program : Program) (id : string).
Arguments TOGGLE_MAXIMIZE {R}.
Arguments TOGGLE_MINIMIZE {R}.
Arguments RESTORE {R}.
Arguments MOVE {R} dx dy.
Arguments RESIZE {R} side dx dy.
Arguments INIT {R} title program id.

Section Reducer.
Context {R : Type} `{Number R}.

(** [{ ...state, status }], [{ ...state, pos }] and
    [{ ...state, size, pos }]. *)
Definition with_status (state : WindowState R) (st : Status)
  : WindowState R :=
  mkWindowState st (pos state) (size state) (title state) (icon state)
    (program state) (id state).

Definition with_pos (state : WindowState R) (p : Pos R) : WindowState R :=
  mkWindowState (status state) p (size state) (title state) (icon state)
    (program state) (id state).

Definition with_size (state : WindowState R) (sz : Size R)
  : WindowState R :=
  mkWindowState (status state) (pos state) sz (title state) (icon state)
    (program state) (id state).

(** The initial state [windowAtomFamily] gives the window [id]. *)
Definition windowAtomFamily (id : string) : WindowState R :=
  mkWindowState normal (mkPos (lit 100) (lit 100))
    (mkSize (lit 400) auto) "Welcome to Windows 96" None ProgramWelcome id.

Definition MIN_WINDOW_SIZE_width : R := lit 300.
Definition MIN_WINDOW_SIZE_height : R := lit 100.

Definition clampSize (sz : Size R) : Size R :=
  mkSize (Math_max (width sz) MIN_WINDOW_SIZE_width)
    match height sz with
    | auto => auto
    | px h => px (Math_max h MIN_WINDOW_SIZE_height)
    end.

(** [state.size.height === "auto" ? 0 : state.size.height]. *)
Definition height_or_zero (state : WindowState R) : R :=
  match height (size state) with
  | auto => lit 0
  | px h => h
  end.

Definition handleResize (state : WindowState R) (action : WindowAction R)
  : WindowState R :=
  match action with
  | RESIZE SideTop _ dy =>
      let delta := opp dy in
      with_pos
        (with_size state
           (mkSize (width (size state))
              (px (plus (height_or_zero state) delta))))
        (mkPos (x (pos state)) (minus (y (pos state)) delta))
  | RESIZE SideBottom _ dy =>
      let delta := dy in
      with_size state
        (mkSize (width (size state))
           (px (plus (height_or_zero state) delta)))
  | RESIZE SideLeft dx _ =>
      let delta := opp dx in
      with_pos
        (with_size state
           (mkSize (plus (width (size state)) delta) (height (size state))))
        (mkPos (minus (x (pos state)) delta) (y (pos state)))
  | RESIZE SideRight dx _ =>
      let delta := dx in
      with_size state
        (mkSize (plus (width (size state)) delta) (height (size state)))
  | RESIZE SideBottomRight dx dy =>
      with_size state
        (mkSize (plus (width (size state)) dx)
           (px (plus (height_or_zero state) dy)))
  | RESIZE SideTopRight dx0 dy0 =>
      let dx := dx0 in
      let dy := opp dy0 in
      with_pos
        (with_size state
           (mkSize (plus (width (size state)) dx)
              (px (plus (height_or_zero state) dy))))
        (mkPos (x (pos state)) (minus (y (pos state)) dy))
  | RESIZE SideBottomLeft dx0 dy0 =>
      let dx := opp dx0 in
      let dy := dy0 in
      with_pos
        (with_size state
           (mkSize (plus (width (size state)) dx)
              (px (plus (height_or_zero state) dy))))
        (mkPos (minus (x (pos state)) dx) (y (pos state)))
  | RESIZE SideTopLeft dx0 dy0 =>
      let dx := opp dx0 in
      let dy := opp dy0 in
      with_pos
        (with_size state
           (mkSize (plus (width (size state)) dx)
              (px (plus (height_or_zero state) dy))))
        (mkPos (minus (x (pos state)) dx) (minus (y (pos state)) dy))
  | _ => state
  end.

Definition windowReducer (state : WindowState R) (action : WindowAction R)
  : WindowState R :=
  match action with
  | TOGGLE_MAXIMIZE =>
      with_status state
        match status state with
        | maximized => normal
        | _ => maximized
        end
  | TOGGLE_MINIMIZE =>
      with_status state
        match status state with
        | minimized => normal
        | _ => minimized
        end
  | MOVE dx dy =>
      match status state with
      | maximized | minimized => state
      | normal =>
          with_pos state
            (mkPos (plus (x (pos state)) dx) (plus (y (pos state)) dy))
      end
  | RESTORE => with_status state normal
  | INIT title program id =>
      mkWindowState (status state) (pos state) (size state) title
        (icon state) program id
  | RESIZE _ _ _ =>
      let newState := handleResize state action in
      with_size newState (clampSize (size newState))
  end.

(** The state of an atom of the family after the actions dispatched to
    it. *)
Definition dispatched (state : WindowState R)
    (actions : list (WindowAction R)) : WindowState R :=
  foldl windowReducer state actions.

End Reducer.

(** *** Statements *)

(** An order on the numbers under which [Math.max] is an upper bound of
    its second argument and the initial width is not below the minimum. *)
Class NumberOrder (R : Type) `{Number R} := {
  le : R → R → Prop;
  Math_max_ge a b : le b (Math_max a b);
  initial_width_ge : le (lit 300) (lit 400);
}.

Section Statements.
Context {R : Type} `{NumberOrder R}.

(** The size is not below the minimum: the width is at least 300 and the
    height is ["auto"] or at least 100. *)
Definition size_floor (sz : Size R) : Prop :=
  le (lit 300) (width sz)
  ∧ match height sz with
    | auto => True
    | px h => le (lit 100) h
    end.

End Statements.

(** The side moves the horizontal, the vertical edges. *)
Definition horizontal (side : Side) : Prop :=
  side = SideLeft ∨ side = SideRight.

(** The two edge drags a corner drag is made of. *)
Definition edges_of (side : Side) : option (Side * Side) :=
  match side with
  | SideTopLeft => Some (SideLeft, SideTop)
  | SideTopRight => Some (SideRight, SideTop)
  | SideBottomLeft => Some (SideLeft, SideBottom)
  | SideBottomRight => Some (SideRight, SideBottom)
  | _ => None
  end.

(** An integer that a double holds exactly, and one whose sum or
    difference with another such integer a double holds exactly. *)
Definition exact_integer (z : Z) : Prop := (- 2 ^ 53 ≤ z ≤ 2 ^ 53)%Z.
Definition safe_integer (z : Z) : Prop := (- 2 ^ 52 ≤ z ≤ 2 ^ 52)%Z.

(** A window 500 wide and 300 high at (40, 60), on integer pixels. *)
Definition sample : WindowState Z :=
  mkWindowState normal (mkPos 40 60)%Z (mkSize 500%Z (px 300%Z))
    "Notes" None ProgramRun "w1".

End Window.

(** * Properties *)

(** ** Splitting and joining *)

Module JsFacts.
Import Js.

Lemma split_sep_cons sep s : split sep (String sep s) = "" :: split sep s.
Proof. simpl. by rewrite decide_True. Qed.

Lemma split_not_nil sep s : split sep s ≠ [].
Proof.
  destruct s as [|c s]; simpl; [done|].
  case_decide; [done|]. by destruct (split sep s).
Qed.

Lemma split_free sep s : free_of sep s → split sep s = [s].
Proof.
  induction s as [|c s IH]; simpl; [done|].
  intros [Hc Hs]. rewrite decide_False by done. by rewrite IH.
Qed.

Lemma split_app sep a b :
  split sep (a ++ String sep b) = (split sep a ++ split sep b)%list.
Proof.
  induction a as [|c a IH]; simpl.
  - by rewrite decide_True.
  - case_decide; [by rewrite IH|].
    rewrite IH. destruct (split sep a) eqn:E; [|done].
    by apply split_not_nil in E.
Qed.

Lemma join_split sep s : join (String sep "") (split sep s) = s.
Proof.
  induction s as [|c s IH]; simpl; [done|].
  case_decide as Hc.
  - subst c. destruct (split sep s) eqn:E.
    + by apply split_not_nil in E.
    + simpl in *. by rewrite IH.
  - destruct (split sep s) as [|seg [|seg' segs]] eqn:E.
    + by apply split_not_nil in E.
    + simpl in *. by rewrite IH.
    + simpl in *. by rewrite <- IH.
Qed.

End JsFacts.

(** ** Path resolution *)

Section Routing.
Context {S : Type} `{Drive S}.
Implicit Types (this : FsManager S) (path name : string).

Lemma getMountedDriveForPath_ADrive this path name drive :
  getMountedDriveForPath this path = ADrive name drive
  ↔ mount_prefix this path name drive.
Proof.
  unfold getMountedDriveForPath, mount_prefix, Js.truthy, Js.get.
  destruct (Js.split "/" path !! 1) as [kw|] eqn:E1;
    [|split; [done|by intros [? _]]].
  destruct (decide (kw = "mnt")) as [->|Hkw].
  2:{ rewrite bool_decide_eq_false_2 by congruence.
      split; [done|]. intros [? _]. congruence. }
  rewrite bool_decide_eq_true_2 by done.
  destruct (Js.split "/" path !! 2) as [seg|] eqn:E2;
    [|split; [done|by intros (_ & ? & _)]].
  destruct (decide (seg = "")) as [->|Hseg]; simpl.
  { split; [done|]. intros (_ & ? & ? & _). congruence. }
  destruct (mountedDrives this !! seg) eqn:E3; simpl.
  - split.
    + by intros [= <- <-].
    + intros (_ & [= <-] & _ & Hm). congruence.
  - split; [by destruct (Js.inherits seg)|].
    intros (_ & [= <-] & _ & Hm). congruence.
Qed.

Lemma getMountedDriveForPath_NotADrive this path name :
  getMountedDriveForPath this path = NotADrive name
  ↔ prototype_prefix this path name.
Proof.
  unfold getMountedDriveForPath, prototype_prefix, Js.truthy, Js.get.
  destruct (Js.split "/" path !! 1) as [kw|] eqn:E1;
    [|split; [done|by intros [? _]]].
  destruct (decide (kw = "mnt")) as [->|Hkw].
  2:{ rewrite bool_decide_eq_false_2 by congruence.
      split; [done|]. intros [? _]. congruence. }
  rewrite bool_decide_eq_true_2 by done.
  destruct (Js.split "/" path !! 2) as [seg|] eqn:E2;
    [|split; [done|by intros (_ & ? & _)]].
  destruct (decide (seg = "")) as [->|Hseg]; simpl.
  { split; [done|]. intros (_ & [= <-] & _ & Hi). by vm_compute in Hi. }
  destruct (mountedDrives this !! seg) eqn:E3; simpl.
  - split; [done|]. intros (_ & [= <-] & ? & _). congruence.
  - destruct (Js.inherits seg) eqn:Ei.
    + split; [by intros [= <-]|]. by intros (_ & [= <-] & _).
    + split; [done|]. intros (_ & [= <-] & _ & ?). congruence.
Qed.



Lemma delegates_mounted this path name drive :
  getMountedDriveForPath this path = ADrive name drive →
  delegates this path drive (with_mounted this name) (getRelativePath path).
Proof.
  intros E. unfold delegates, writeFile, createFolder, delete_, insert_,
    getItem, getFile, getFolder.
  rewrite E. repeat split; try done.
  intros depth Hne. by rewrite decide_False.
Qed.



(** The rewriting is transparent: what follows ["/mnt/<name>/"] comes
    back as it is. *)
Lemma getRelativePath_mount name rest :
  Js.free_of "/" name →
  getRelativePath ("/mnt/" ++ name ++ "/" ++ rest) = "/" ++ rest.
Proof.
  intros Hfree. unfold getRelativePath.
  change ("/mnt/" ++ name ++ "/" ++ rest)
    with (String "/" ("mnt" ++ String "/" (name ++ String "/" rest))).
  rewrite JsFacts.split_sep_cons, !JsFacts.split_app.
  rewrite (JsFacts.split_free _ name) by done.
  change (drop 3 _) with (Js.split "/" rest).
  change "/" with (String "/"%char "") at 1 2.
  by rewrite JsFacts.join_split.
Qed.

Lemma split_mount name rest :
  Js.free_of "/" name →
  Js.split "/" ("/mnt/" ++ name ++ "/" ++ rest)
  = ""%string :: "mnt" :: name :: Js.split "/" rest.
Proof.
  intros Hfree.
  change ("/mnt/" ++ name ++ "/" ++ rest)
    with (String "/" ("mnt" ++ String "/" (name ++ String "/" rest))).
  rewrite JsFacts.split_sep_cons, !JsFacts.split_app.
  by rewrite (JsFacts.split_free _ name).
Qed.


End Routing.

(** The lookup is by the exact name: a drive mounted as ["X"] does not
    answer for ["/mnt/x/..."]. *)
Example resolution_is_case_sensitive :
  let this := Mem.manager Mem.empty {[ "X" := Mem.empty ]} in
  getMountedDriveForPath this "/mnt/X/a.txt" = ADrive "X" Mem.empty
  ∧ getMountedDriveForPath this "/mnt/x/a.txt" = Null.
Proof. by vm_compute. Qed.

(** A name that the table does not have is looked up in
    [Object.prototype]: with nothing mounted under ["constructor"] the
    read of ["/mnt/constructor/a.txt"] is rejected and no drive is asked;
    a drive mounted under that name answers as any other. *)
Example resolution_of_prototype_member :
  let drive := Mem.NDir {[ "a.txt" := Mem.NFile (Text "hi") ]} in
  let this := Mem.manager Mem.empty {[ "X" := drive ]} in
  let this' := Mem.manager Mem.empty {[ "constructor" := drive ]} in
  getFile "/mnt/constructor/a.txt" deep this
  = Rejected (TypeError "mountedDrive.getFile is not a function")
  ∧ getFile "/mnt/constructor/a.txt" deep this'
    = Ok (Some (DeepFile "a.txt" (Text "hi"))).
Proof. split; by vm_compute. Qed.



(** ** Moves *)

Section Move.
Context {S : Type} `{Drive S}.
Implicit Types (this : FsManager S).



End Move.

(** A move from a mounted drive to a path of another drive, or of no
    drive, lands on the source drive, two segments shorter. *)
Example move_to_other_drive :
  let x := Mem.NDir {[ "a.txt" := Mem.NFile (Text "hi") ]} in
  let this := Mem.manager Mem.empty {[ "X" := x; "Y" := Mem.empty ]} in
  move "/mnt/X/a.txt" "/mnt/Y/b.txt" this
  = Ok (Mem.manager Mem.empty
          {[ "X" := Mem.NDir {[ "b.txt" := Mem.NFile (Text "hi") ]};
             "Y" := Mem.empty ]})
  ∧ move "/mnt/X/a.txt" "/docs/notes/b.txt" this
    = Ok (Mem.manager Mem.empty
            {[ "X" := Mem.NDir {[ "b.txt" := Mem.NFile (Text "hi") ]};
               "Y" := Mem.empty ]}).
Proof. split; by vm_compute. Qed.


(** ** The listing of the namespace root *)

Section Injection.
Context {S : Type} `{Drive S}.
Implicit Types (this : FsManager S) (drives : gmap string S).















End Injection.

(** *** The root listing on in-memory drives *)

Module RootExampleFacts.
Import Mem RootExamples.



End RootExampleFacts.





(** The deep listing of ["/"] over these drives: the stored ["mnt"] is
    gone, ["X"] is expanded and ["Z"] is [null]. *)
Example getFolder_root_deep_run :
  getFolder "/" deep RootExamples.this
  = Ok (Some (mkFolder "/"
       {[ "mnt" := IFolder "mnt"
            {[ "X" := IFolder "/" {[ "a.txt" := IFile (DeepFile "a.txt" (Text "hi")) ]};
               "Z" := INull ]};
          "user" := IFolder "user" ∅ ]})).
Proof. by vm_compute. Qed.


(** ** Bootstrap *)

Section ResolveFacts.
Context {S : Type} `{Drive S}.
Implicit Types (this : FsManager S).

Lemma getMountedDriveForPath_root this :
  getMountedDriveForPath this "/" = Null.
Proof. done. Qed.

Lemma getMountedDriveForPath_with_root this d path :
  getMountedDriveForPath (with_root this d) path
  = getMountedDriveForPath this path.
Proof. done. Qed.

Lemma getMountedDriveForPath_with_mounted this name d d' path :
  mountedDrives this !! name = Some d →
  getMountedDriveForPath (with_mounted this name d') path
  = match getMountedDriveForPath this path with
    | ADrive n drive =>
        if decide (n = name) then ADrive name d' else ADrive n drive
    | NotADrive n => NotADrive n
    | Null => Null
    end.
Proof.
  intros Hm. unfold getMountedDriveForPath, Js.get. simpl.
  destruct (bool_decide _ && _); [|done].
  destruct (Js.split "/" path !! 2) as [n|]; simpl; [|done].
  destruct (decide (n = name)) as [->|Hne].
  - rewrite lookup_insert_eq, Hm. simpl. by rewrite decide_True.
  - rewrite lookup_insert_ne by done.
    destruct (mountedDrives this !! n); simpl.
    + by rewrite decide_False.
    + by destruct (Js.inherits n).
Qed.

Lemma resolve_put_back_same this path drive rel d' :
  resolve this path = Some (drive, rel) →
  resolve (put_back this path d') path = Some (d', rel).
Proof.
  unfold resolve, put_back.
  destruct (getMountedDriveForPath this path) as [n d|n|] eqn:E;
    [|done|].
  - pose proof E as E'. apply getMountedDriveForPath_ADrive in E'.
    destruct E' as (_ & _ & _ & Hm).
    rewrite (getMountedDriveForPath_with_mounted _ _ _ _ _ Hm), E.
    rewrite decide_True by done. by intros [= _ <-].
  - rewrite getMountedDriveForPath_with_root, E. by intros [= _ <-].
Qed.

(** After a write at [path], another path resolves as before, or it is
    on the drive that was written and sees the new state. *)
Lemma resolve_put_back_other this path other d' drive rel drive' rel' :
  resolve this path = Some (drive, rel) →
  resolve this other = Some (drive', rel') →
  resolve (put_back this path d') other = Some (drive', rel')
  ∨ (drive' = drive
     ∧ resolve (put_back this path d') other = Some (d', rel')).
Proof.
  unfold resolve, put_back.
  destruct (getMountedDriveForPath this path) as [n d|n|] eqn:E;
    [|done|].
  - pose proof E as E'. apply getMountedDriveForPath_ADrive in E'.
    destruct E' as (_ & _ & _ & Hm). intros [= <- <-].
    rewrite (getMountedDriveForPath_with_mounted _ _ _ _ _ Hm).
    destruct (getMountedDriveForPath this other) as [m dm|m|] eqn:Eo;
      simpl; [|done|by left].
    intros [= <- <-].
    destruct (decide (m = n)) as [->|Hne]; simpl; [|by left].
    right. split; [|done].
    apply getMountedDriveForPath_ADrive in Eo.
    destruct Eo as (_ & _ & _ & Hm'). congruence.
  - rewrite getMountedDriveForPath_with_root. intros [= <- <-].
    destruct (getMountedDriveForPath this other) as [m dm|m|] eqn:Eo;
      simpl; [by left|done|].
    intros [= <- <-]. by right.
Qed.

Lemma createFolder_resolved this path :
  createFolder path this
  = match resolve this path with
    | Some (drive, rel) =>
        await d ← drv_createFolder rel drive; Ok (put_back this path d)
    | None => Rejected (not_a_function "mountedDrive.createFolder")
    end.
Proof.
  unfold createFolder, resolve, put_back.
  by destruct (getMountedDriveForPath this path).
Qed.

Lemma writeFile_resolved this path content :
  writeFile path content this
  = match resolve this path with
    | Some (drive, rel) =>
        await d ← drv_writeFile rel content drive;
        Ok (put_back this path d)
    | None => Rejected (not_a_function "mountedDrive.writeFile")
    end.
Proof.
  unfold writeFile, resolve, put_back.
  by destruct (getMountedDriveForPath this path).
Qed.

Lemma getFile_resolved this path depth :
  getFile path depth this
  = match resolve this path with
    | Some (drive, rel) => drv_getFile rel depth drive
    | None => Rejected (not_a_function "mountedDrive.getFile")
    end.
Proof.
  unfold getFile, resolve.
  by destruct (getMountedDriveForPath this path).
Qed.

(** A folder is there for the manager exactly when it is there for the
    drive the path resolves to: the injection at ["/"] does not turn
    [null] into a folder or a folder into [null]. *)
Lemma folder_exists_resolved this path :
  folder_exists path this
  ↔ ∃ drive rel f, resolve this path = Some (drive, rel)
                   ∧ drv_getFolder rel shallow drive = Ok (Some f).
Proof.
  unfold folder_exists. destruct (decide (path = "/")) as [->|Hne].
  - unfold resolve, getFolder. rewrite getMountedDriveForPath_root.
    rewrite decide_True by done. simpl.
    destruct (drv_getFolder "/" shallow (rootDrive this)) as [[rf|]|e] eqn:E;
      simpl.
    + split; [|case_decide; by eexists].
      intros _. by exists (rootDrive this), "/", rf.
    + split; [by intros [? ?]|].
      intros (d & r & f & [= <- <-] & Hf). congruence.
    + split; [by intros [? ?]|].
      intros (d & r & f & [= <- <-] & Hf). congruence.
  - unfold resolve, getFolder. rewrite decide_False by done.
    destruct (getMountedDriveForPath this path) as [n d|n|].
    + split.
      * intros [f Hf]. by exists d, (getRelativePath path), f.
      * intros (d' & r & f & [= <- <-] & Hf). by exists f.
    + split; [by intros [? ?]|]. by intros (d' & r & f & ? & _).
    + split.
      * intros [f Hf]. by exists (rootDrive this), path, f.
      * intros (d' & r & f & [= <- <-] & Hf). by exists f.
Qed.

End ResolveFacts.

Section BootstrapFacts.
Context {S : Type} `{DriveLaws S}.
Variables SYSTEM_PATH PROGRAMS_PATH USER_PATH REGISTRY_PATH : string.
Implicit Types (this : FsManager S).

Lemma createFolder_exists this this' path :
  createFolder path this = Ok this' → folder_exists path this'.
Proof.
  rewrite createFolder_resolved.
  destruct (resolve this path) as [[drive rel]|] eqn:Er; [|done].
  destruct (drv_createFolder _ _) as [d|e] eqn:E; simpl; [|done].
  intros [= <-]. apply folder_exists_resolved.
  destruct (created_folder_exists _ _ _ E) as [f Hf].
  exists d, rel, f. split; [|done]. by eapply resolve_put_back_same.
Qed.

Lemma writeFile_exists this this' path content :
  writeFile path content this = Ok this' → file_exists path this'.
Proof.
  rewrite writeFile_resolved.
  destruct (resolve this path) as [[drive rel]|] eqn:Er; [|done].
  destruct (drv_writeFile _ _ _) as [d|e] eqn:E; simpl; [|done].
  intros [= <-]. unfold file_exists. rewrite getFile_resolved.
  rewrite (resolve_put_back_same _ _ _ _ d Er).
  by eapply written_file_exists.
Qed.

Lemma createFolder_keeps this this' path other :
  folder_exists other this →
  createFolder path this = Ok this' → folder_exists other this'.
Proof.
  rewrite createFolder_resolved. intros Hex.
  destruct (resolve this path) as [[drive rel]|] eqn:Er; [|done].
  destruct (drv_createFolder _ _) as [d|e] eqn:E; simpl; [|done].
  intros [= <-]. apply folder_exists_resolved.
  apply folder_exists_resolved in Hex as (drive' & rel' & f & Ho & Hf).
  destruct (resolve_put_back_other this path other d _ _ _ _ Er Ho)
    as [Hr|[-> Hr]].
  - by exists drive', rel', f.
  - destruct (createFolder_keeps_folders _ _ _ _ _ Hf E)
      as [f' Hf'].
    by exists d, rel', f'.
Qed.

Lemma writeFile_keeps this this' path content other :
  folder_exists other this →
  writeFile path content this = Ok this' → folder_exists other this'.
Proof.
  rewrite writeFile_resolved. intros Hex.
  destruct (resolve this path) as [[drive rel]|] eqn:Er; [|done].
  destruct (drv_writeFile _ _ _) as [d|e] eqn:E; simpl; [|done].
  intros [= <-]. apply folder_exists_resolved.
  apply folder_exists_resolved in Hex as (drive' & rel' & f & Ho & Hf).
  destruct (resolve_put_back_other this path other d _ _ _ _ Er Ho)
    as [Hr|[-> Hr]].
  - by exists drive', rel', f.
  - destruct (writeFile_keeps_folders _ _ _ _ _ _ Hf E)
      as [f' Hf'].
    by exists d, rel', f'.
Qed.

(** The loop, folder by folder. *)
Lemma loop_cons dir rest this calls0 r :
  setupDefaultDirectories_loop (dir :: rest) this calls0 = Ok r →
  ∃ this1 calls1,
    folder_ensured dir this this1 calls1
    ∧ setupDefaultDirectories_loop rest this1 (calls0 ++ calls1) = Ok r.
Proof.
  simpl.
  destruct (getFolder dir shallow this) as [[f|]|e] eqn:Eg; simpl;
    [| |done].
  - intros Hrest. exists this, []. rewrite app_nil_r.
    split; [|done]. left. split; [by exists f|done].
  - destruct (createFolder dir this) as [this1|e] eqn:Ec; simpl; [|done].
    intros Hrest. exists this1, [CallCreateFolder dir].
    split; [|done]. by right.
Qed.

Lemma loop_present dirs this calls0 :
  Forall (λ dir, folder_exists dir this) dirs →
  setupDefaultDirectories_loop dirs this calls0 = Ok (this, calls0).
Proof.
  induction 1 as [|dir rest [f Hf] _ IH]; simpl; [done|].
  by rewrite Hf.
Qed.

Lemma folder_ensured_exists dir this this' calls :
  folder_ensured dir this this' calls → folder_exists dir this'.
Proof.
  intros [(Hex & -> & _)|(_ & Hc & _)]; [done|].
  by eapply createFolder_exists.
Qed.

Lemma folder_ensured_keeps dir other this this' calls :
  folder_exists other this →
  folder_ensured dir this this' calls → folder_exists other this'.
Proof.
  intros Hex [(_ & -> & _)|(_ & Hc & _)]; [done|].
  by eapply createFolder_keeps.
Qed.

Lemma registry_ensured_keeps file other this this' calls :
  folder_exists other this →
  registry_ensured file this this' calls → folder_exists other this'.
Proof.
  intros Hex [(_ & -> & _)|(_ & Hw & _)]; [done|].
  by eapply writeFile_keeps.
Qed.

Lemma registry_ensured_exists file this this' calls :
  registry_ensured file this this' calls → file_exists file this'.
Proof.
  intros [(Hex & -> & _)|(_ & Hw & _)]; [done|].
  by eapply writeFile_exists.
Qed.

Local Notation "'setup'" :=
  (setupDefaultDirectories SYSTEM_PATH PROGRAMS_PATH USER_PATH REGISTRY_PATH).

(** A run that resolves went through the four steps in order. *)
Lemma setup_steps this this' calls :
  setup this = Ok (this', calls) →
  ∃ this1 this2 this3 c1 c2 c3 c4,
    folder_ensured SYSTEM_PATH this this1 c1
    ∧ folder_ensured PROGRAMS_PATH this1 this2 c2
    ∧ folder_ensured USER_PATH this2 this3 c3
    ∧ registry_ensured REGISTRY_PATH this3 this' c4
    ∧ calls = (c1 ++ c2 ++ c3 ++ c4)%list.
Proof.
  unfold setupDefaultDirectories.
  destruct (setupDefaultDirectories_loop _ this []) as [[t3 cs]|e] eqn:El;
    simpl; [|done].
  apply loop_cons in El as (this1 & c1 & H1 & El).
  apply loop_cons in El as (this2 & c2 & H2 & El).
  apply loop_cons in El as (this3 & c3 & H3 & El).
  simpl in El. injection El as <- <-.
  intros Hreg. exists this1, this2, this3, c1, c2, c3.
  destruct (getFile REGISTRY_PATH shallow this3) as [[f|]|e] eqn:Eg;
    simpl in Hreg; [| |done].
  - injection Hreg as <- <-. exists [].
    rewrite !app_nil_r. repeat split; try done.
    + left. split; [by exists f|done].
    + by rewrite <- !app_assoc.
  - destruct (writeFile REGISTRY_PATH (Text "{}") this3) as [t4|e] eqn:Ew;
      simpl in Hreg; [|done].
    injection Hreg as <- <-. exists [CallWriteFile REGISTRY_PATH (Text "{}")].
    repeat split; try done.
    + by right.
    + by rewrite <- !app_assoc.
Qed.

(** With everything in place a run does nothing. *)
Lemma setup_present this :
  folder_exists SYSTEM_PATH this → folder_exists PROGRAMS_PATH this →
  folder_exists USER_PATH this → file_exists REGISTRY_PATH this →
  setup this = Ok (this, []).
Proof.
  intros Hs Hp Hu [f Hf]. unfold setupDefaultDirectories.
  rewrite loop_present by (repeat constructor; done).
  simpl. by rewrite Hf.
Qed.

(** C6: a run that resolves saw to each of the three folders in turn,
    creating one exactly when its shallow read gave [null], and then to
    the registry file, writing ["{}"] exactly when its shallow read gave
    [null]; run again on the state it left, the method resolves, issues
    no call and leaves the state as it is. *)
Theorem setupDefaultDirectories_idempotent this this' calls :
  setup this = Ok (this', calls) →
  (∃ this1 this2 this3 c1 c2 c3 c4,
     folder_ensured SYSTEM_PATH this this1 c1
     ∧ folder_ensured PROGRAMS_PATH this1 this2 c2
     ∧ folder_ensured USER_PATH this2 this3 c3
     ∧ registry_ensured REGISTRY_PATH this3 this' c4
     ∧ calls = (c1 ++ c2 ++ c3 ++ c4)%list)
  ∧ setup this' = Ok (this', []).
Proof.
  intros Hrun. pose proof (setup_steps _ _ _ Hrun) as Hsteps.
  split; [exact Hsteps|].
  destruct Hsteps as (t1 & t2 & t3 & c1 & c2 & c3 & c4
                      & H1 & H2 & H3 & H4 & _).
  apply setup_present.
  - eapply registry_ensured_keeps; [|exact H4].
    eapply folder_ensured_keeps; [|exact H3].
    eapply folder_ensured_keeps; [|exact H2].
    by eapply folder_ensured_exists.
  - eapply registry_ensured_keeps; [|exact H4].
    eapply folder_ensured_keeps; [|exact H3].
    by eapply folder_ensured_exists.
  - eapply registry_ensured_keeps; [|exact H4].
    by eapply folder_ensured_exists.
  - by eapply registry_ensured_exists.
Qed.

(** C7: [hasSystemData] resolves to [true] exactly when the shallow
    read of the system folder resolves to a folder and to [false]
    exactly when it resolves to [null]; so it is [false] while the read
    gives [null] and [true] in the state a [createFolder] of the system
    folder resolved to. *)
Theorem hasSystemData_probe this :
  (hasSystemData SYSTEM_PATH this = Ok true
   ↔ ∃ f, getFolder SYSTEM_PATH shallow this = Ok (Some f))
  ∧ (hasSystemData SYSTEM_PATH this = Ok false
     ↔ getFolder SYSTEM_PATH shallow this = Ok None)
  ∧ (∀ this', createFolder SYSTEM_PATH this = Ok this' →
       hasSystemData SYSTEM_PATH this' = Ok true).
Proof.
  assert (Htrue : ∀ t, hasSystemData SYSTEM_PATH t = Ok true
            ↔ ∃ f, getFolder SYSTEM_PATH shallow t = Ok (Some f)).
  { intros t. unfold hasSystemData.
    destruct (getFolder SYSTEM_PATH shallow t) as [[f|]|e]; simpl.
    - split; [by eexists|done].
    - split; [done|by intros [? ?]].
    - split; [done|by intros [? ?]]. }
  split; [apply Htrue|]. split.
  - unfold hasSystemData.
    destruct (getFolder SYSTEM_PATH shallow this) as [[f|]|e]; simpl;
      split; done.
  - intros this' Hc. apply Htrue. by eapply createFolder_exists.
Qed.

End BootstrapFacts.

(** *** The in-memory drive keeps the laws *)

Module MemFacts.
Import Mem.

Lemma getFolder_Some path s :
  (∃ f, getFolder path shallow s = Ok (Some f)) ↔ is_dir (segments path) s.
Proof.
  unfold getFolder, is_dir.
  destruct (lookup_node (segments path) s) as [[c|children]|]; split;
    try (by intros [? ?]); intros _; by eexists.
Qed.

Lemma mkdirp_is_dir segs n n' : mkdirp segs n = Ok n' → is_dir segs n'.
Proof.
  revert n n'. induction segs as [|seg rest IH]; intros [c|children] n';
    simpl; try done.
  - intros [= <-]. by eexists.
  - destruct (mkdirp rest _) as [child|e] eqn:E; simpl; [|done].
    intros [= <-]. unfold is_dir. simpl. rewrite lookup_insert_eq. simpl.
    by eapply IH.
Qed.

Lemma mkdirp_keeps segs other n n' :
  is_dir other n → mkdirp segs n = Ok n' → is_dir other n'.
Proof.
  revert other n n'. induction segs as [|seg rest IH];
    intros other [c|children] n'; simpl; try done.
  - by intros Hd [= <-].
  - destruct (mkdirp rest _) as [child|e] eqn:E; simpl; [|done].
    intros Hd [= <-]. destruct other as [|s others]; [by eexists|].
    unfold is_dir in *. simpl in *.
    destruct (decide (seg = s)) as [->|Hne].
    + rewrite lookup_insert_eq. simpl.
      destruct (children !! s) as [c0|] eqn:Ec; simpl in *;
        [|by destruct Hd].
      by eapply IH.
    + by rewrite lookup_insert_ne.
Qed.

Lemma put_file_lookup segs content n n' :
  put segs (NFile content) n = Ok n' →
  lookup_node segs n' = Some (NFile content).
Proof.
  revert n n'. induction segs as [|seg rest IH]; intros n n'; simpl.
  - by intros [= <-].
  - destruct n as [c|children]; [done|].
    destruct (put rest _ _) as [child|e] eqn:E; simpl; [|done].
    intros [= <-]. simpl. rewrite lookup_insert_eq. simpl. by eapply IH.
Qed.

Lemma put_file_keeps segs content other n n' :
  is_dir other n →
  (∀ children, lookup_node segs n ≠ Some (NDir children)) →
  put segs (NFile content) n = Ok n' → is_dir other n'.
Proof.
  revert other n n'. induction segs as [|seg rest IH];
    intros other n n' Hd Hfile; simpl.
  - intros [= <-]. simpl in Hfile.
    destruct n as [c|children]; [|by destruct (Hfile children)].
    destruct Hd as [ch Hd]. destruct other; simpl in Hd; done.
  - destruct n as [c|children]; [done|].
    destruct (put rest _ _) as [child|e] eqn:E; simpl; [|done].
    intros [= <-]. destruct other as [|s others]; [by eexists|].
    unfold is_dir in *. simpl in *.
    destruct (decide (seg = s)) as [->|Hne].
    + rewrite lookup_insert_eq. simpl.
      destruct (children !! s) as [c0|] eqn:Ec; simpl in *;
        [|by destruct Hd].
      by eapply IH.
    + by rewrite lookup_insert_ne.
Qed.

#[global] Instance laws : DriveLaws Node.
Proof.
  split.
  - intros path s s' Hc. apply getFolder_Some.
    eapply mkdirp_is_dir. exact Hc.
  - intros path content s s'. simpl. unfold writeFile, getFile.
    intros Hw.
    assert (Hput : put (segments path) (NFile content) s = Ok s').
    { by destruct (lookup_node (segments path) s) as [[c|children]|]. }
    rewrite (put_file_lookup _ _ _ _ Hput). by eexists.
  - intros path other s s' f Hf Hc. apply getFolder_Some.
    eapply mkdirp_keeps; [|exact Hc]. apply getFolder_Some. by eexists.
  - intros path content other s s' f Hf. simpl. unfold writeFile.
    intros Hw. apply getFolder_Some.
    destruct (lookup_node (segments path) s) as [[c|children]|] eqn:El;
      try done.
    + eapply put_file_keeps; [| |exact Hw].
      * apply getFolder_Some. by eexists.
      * intros ch. by rewrite El.
    + eapply put_file_keeps; [| |exact Hw].
      * apply getFolder_Some. by eexists.
      * intros ch. by rewrite El.
Qed.

End MemFacts.

(** *** The bootstrap on in-memory drives *)

Module BootstrapExampleFacts.
Import BootstrapExamples.

Example first_run :
  setup fresh
  = Ok (booted, [CallCreateFolder SYSTEM_PATH; CallCreateFolder PROGRAMS_PATH;
                 CallWriteFile REGISTRY_PATH (Text "{}")]).
Proof. by vm_compute. Qed.

End BootstrapExampleFacts.

(** [setupDefaultDirectories_idempotent] after the first run on the
    in-memory drives. *)
Lemma setupDefaultDirectories_idempotent_witness :
  BootstrapExamples.setup BootstrapExamples.booted
  = Ok (BootstrapExamples.booted, []).
Proof.
  exact (proj2 (setupDefaultDirectories_idempotent
                  BootstrapExamples.SYSTEM_PATH BootstrapExamples.PROGRAMS_PATH
                  BootstrapExamples.USER_PATH BootstrapExamples.REGISTRY_PATH
                  BootstrapExamples.fresh BootstrapExamples.booted _
                  BootstrapExampleFacts.first_run)).
Defined.

(** [hasSystemData_probe] on a store without the system folder. *)
Lemma hasSystemData_probe_witness :
  hasSystemData BootstrapExamples.SYSTEM_PATH BootstrapExamples.fresh = Ok false
  ∧ ∀ this',
      createFolder BootstrapExamples.SYSTEM_PATH BootstrapExamples.fresh
      = Ok this' →
      hasSystemData BootstrapExamples.SYSTEM_PATH this' = Ok true.
Proof.
  destruct (hasSystemData_probe BootstrapExamples.SYSTEM_PATH
              BootstrapExamples.fresh) as (_ & Hfalse & Hafter).
  split; [apply Hfalse; reflexivity | exact Hafter].
Defined.

(** ** Live-view atoms *)

Section AtomFacts.
Context {S : Type}.
Local Open Scope nat_scope.
Implicit Types (w : @World S) (this : FsManager S) (rt : Runtime).

Lemma atomsMap_of_with_atomsMap kind kind' this table :
  atomsMap_of kind (with_atomsMap kind' this table)
  = if decide (kind = kind') then table else atomsMap_of kind this.
Proof. by destruct kind as [[]|], kind' as [[]|]. Qed.

(** Both methods look the path up in the table of their kind and
    register a new atom when it holds none. *)
Lemma get_atom_unfold kind path this rt :
  get_atom kind path (this, rt)
  = match atomsMap_of kind this !! path with
    | None =>
        let atom := fresh (dom (atoms rt)) in
        (atom,
         (with_atomsMap kind this (<[path := atom]> (atomsMap_of kind this)),
          mkRuntime (<[atom := mkAtom path kind]> (atoms rt))
            (subscribed rt) (intervals rt) (next_interval rt) (now rt)))
    | Some atom => (atom, (this, rt))
    end.
Proof. by destruct kind as [[]|]. Qed.

Lemma get_atom_registered kind path w a :
  atomsMap_of kind w.1 !! path = Some a → get_atom kind path w = (a, w).
Proof.
  destruct w as [this rt]. rewrite get_atom_unfold. simpl. by intros ->.
Qed.

Lemma get_atom_runtime kind path w :
  subscribed (get_atom kind path w).2.2 = subscribed w.2
  ∧ intervals (get_atom kind path w).2.2 = intervals w.2
  ∧ next_interval (get_atom kind path w).2.2 = next_interval w.2
  ∧ now (get_atom kind path w).2.2 = now w.2.
Proof.
  destruct w as [this rt]. rewrite get_atom_unfold. simpl.
  by destruct (atomsMap_of kind this !! path).
Qed.

Lemma get_atom_table kind path w :
  atomsMap_of kind (get_atom kind path w).2.1 !! path
  = Some (get_atom kind path w).1.
Proof.
  destruct w as [this rt]. rewrite get_atom_unfold. simpl.
  destruct (atomsMap_of kind this !! path) eqn:E; simpl; [done|].
  rewrite atomsMap_of_with_atomsMap, decide_True by done.
  by rewrite lookup_insert_eq.
Qed.

Lemma get_atom_fresh kind path w :
  atomsMap_of kind w.1 !! path = None →
  (get_atom kind path w).1 ∉ dom (atoms w.2).
Proof.
  destruct w as [this rt]. rewrite get_atom_unfold. simpl.
  intros ->. simpl. apply is_fresh.
Qed.

(** *** The invariant *)

Lemma wf_initial w : initial w → wf w.
Proof.
  destruct w as [this rt]. intros (Hs & Hd & Hf & Hrt). simpl in *.
  subst rt. split; simpl; try done.
  intros [[]|] path a; simpl; by rewrite ?Hs, ?Hd, ?Hf.
Qed.

Lemma wf_get_atom kind path w : wf w → wf (get_atom kind path w).2.
Proof.
  destruct w as [this rt]. intros Hwf. rewrite get_atom_unfold.
  destruct (atomsMap_of kind this !! path) eqn:E; [done|]. simpl.
  pose proof (is_fresh (dom (atoms rt))) as Hfresh.
  apply not_elem_of_dom in Hfresh.
  split; simpl; [|apply Hwf..].
  intros kind' path' a'. rewrite atomsMap_of_with_atomsMap.
  case_decide as Hk.
  - subst kind'. destruct (decide (path' = path)) as [->|Hp].
    + rewrite lookup_insert_eq. intros [= <-]. by rewrite lookup_insert_eq.
    + rewrite lookup_insert_ne by done. intros Hold.
      apply (wf_tables _ Hwf) in Hold. simpl in Hold.
      rewrite lookup_insert_ne; [done|]. congruence.
  - intros Hold. apply (wf_tables _ Hwf) in Hold. simpl in Hold.
    rewrite lookup_insert_ne; [done|]. congruence.
Qed.

Lemma wf_subscribe a w : wf w → wf (subscribe a w).
Proof.
  destruct w as [this rt]. intros Hwf. simpl.
  destruct (subscribed rt !! a) as [[n iv]|] eqn:E.
  - split; simpl; [apply Hwf| | |apply Hwf].
    + intros a' n' iv'. destruct (decide (a' = a)) as [->|Hne].
      * rewrite lookup_insert_eq. intros [= <- <-].
        destruct (wf_subscribed _ Hwf _ _ _ E) as [_ Hi].
        split; [lia|done].
      * rewrite lookup_insert_ne by done. apply Hwf.
    + intros iv' i' Hi'.
      destruct (wf_intervals _ Hwf _ _ Hi') as [Hlt [n' Hs]].
      split; [done|]. simpl in Hs.
      destruct (decide (iv_atom i' = a)) as [Ha|Hne].
      * rewrite Ha in *. rewrite lookup_insert_eq.
        assert (iv' = iv) as -> by congruence. by eexists.
      * rewrite lookup_insert_ne by done. by eexists.
  - split; simpl; [apply Hwf| | |].
    + intros a' n' iv'. destruct (decide (a' = a)) as [->|Hne].
      * rewrite lookup_insert_eq. intros [= <- <-].
        split; [lia|]. eexists. by rewrite lookup_insert_eq.
      * rewrite lookup_insert_ne by done. intros Hs.
        destruct (wf_subscribed _ Hwf _ _ _ Hs) as [Hn (i & Hi & Ha)].
        split; [done|]. exists i. split; [|done].
        destruct (wf_intervals _ Hwf _ _ Hi) as [Hlt _]. simpl in *.
        rewrite lookup_insert_ne; [done|lia].
    + intros iv' i'. destruct (decide (iv' = next_interval rt)) as [->|Hne].
      * rewrite lookup_insert_eq. intros [= <-]. simpl.
        split; [lia|]. rewrite lookup_insert_eq. by eexists.
      * rewrite lookup_insert_ne by done. intros Hi'.
        destruct (wf_intervals _ Hwf _ _ Hi') as [Hlt [n' Hs]].
        simpl in *. split; [lia|]. exists n'.
        rewrite lookup_insert_ne; [done|]. congruence.
    + intros iv' i'. destruct (decide (iv' = next_interval rt)) as [->|Hne].
      * rewrite lookup_insert_eq. intros [= <-]. simpl.
        repeat split; lia.
      * rewrite lookup_insert_ne by done. apply Hwf.
Qed.

Lemma wf_onUnmount a n iv this rt :
  wf (this, rt) → subscribed rt !! a = Some (n, iv) →
  wf (onUnmount a iv
        (this, mkRuntime (atoms rt) (delete a (subscribed rt))
                 (intervals rt) (next_interval rt) (now rt))).
Proof.
  intros Hwf E.
  destruct (onUnmount a iv _) as [this' rt'] eqn:Eo.
  assert (Hrt : rt' = mkRuntime (atoms rt) (delete a (subscribed rt))
                        (delete iv (intervals rt)) (next_interval rt)
                        (now rt)).
  { simpl in Eo. destruct (atoms rt !! a); by injection Eo as <- <-. }
  assert (Htables : ∀ kind path a',
            atomsMap_of kind this' !! path = Some a' →
            atoms rt !! a' = Some (mkAtom path kind)).
  { intros kind path a'. simpl in Eo.
    destruct (atoms rt !! a) as [[p k]|]; injection Eo as <- _;
      simpl; [|apply Hwf].
    rewrite atomsMap_of_with_atomsMap. case_decide as Hk.
    - subst k. intros Hd. apply lookup_delete_Some in Hd as [_ Hd].
      by apply (wf_tables _ Hwf) in Hd.
    - apply Hwf. }
  subst rt'. clear Eo. split; simpl.
  - apply Htables.
  - intros a' n' iv' Hs. apply lookup_delete_Some in Hs as [Hne Hs].
    destruct (wf_subscribed _ Hwf _ _ _ Hs) as [Hn (i & Hi & Ha)].
    split; [done|]. exists i. split; [|done]. simpl in *.
    rewrite lookup_delete_ne; [done|]. intros <-.
    destruct (wf_subscribed _ Hwf _ _ _ E) as [_ (i0 & Hi0 & Ha0)].
    simpl in *. congruence.
  - intros iv' i' Hi'. apply lookup_delete_Some in Hi' as [Hne Hi'].
    destruct (wf_intervals _ Hwf _ _ Hi') as [Hlt [n' Hs]].
    split; [done|]. exists n'. simpl in *.
    rewrite lookup_delete_ne; [done|]. intros Ha. rewrite Ha in E.
    congruence.
  - intros iv' i' Hi'. apply lookup_delete_Some in Hi' as [Hne Hi'].
    by apply (wf_period _ Hwf iv').
Qed.

Lemma wf_unsubscribe a w : wf w → wf (unsubscribe a w).
Proof.
  destruct w as [this rt]. intros Hwf. unfold unsubscribe.
  destruct (subscribed rt !! a) as [[[|[|n]] iv]|] eqn:E; [| | |done].
  - by eapply wf_onUnmount.
  - by eapply wf_onUnmount.
  - split; simpl; [apply Hwf| | |apply Hwf].
    + intros a' n' iv'. destruct (decide (a' = a)) as [->|Hne].
      * rewrite lookup_insert_eq. intros [= <- <-].
        destruct (wf_subscribed _ Hwf _ _ _ E) as [_ Hi].
        split; [lia|done].
      * rewrite lookup_insert_ne by done. apply Hwf.
    + intros iv' i' Hi'.
      destruct (wf_intervals _ Hwf _ _ Hi') as [Hlt [n' Hs]].
      split; [done|]. simpl in Hs.
      destruct (decide (iv_atom i' = a)) as [Ha|Hne].
      * rewrite Ha in *. rewrite lookup_insert_eq.
        assert (iv' = iv) as -> by congruence. by eexists.
      * rewrite lookup_insert_ne by done. by eexists.
Qed.

Lemma wf_tick w : wf w → wf (tick w).
Proof.
  destruct w as [this rt]. intros Hwf.
  assert (Hatom : ∀ c i, iv_atom (fire c i) = iv_atom i).
  { intros c i. unfold fire. by case_decide. }
  split; simpl.
  - apply Hwf.
  - intros a n iv Hs.
    destruct (wf_subscribed _ Hwf _ _ _ Hs) as [Hn (i & Hi & Ha)].
    split; [done|]. exists (fire (now rt + 1)%N i).
    simpl in *. rewrite lookup_fmap, Hi. by rewrite Hatom.
  - intros iv i'. rewrite lookup_fmap.
    destruct (intervals rt !! iv) as [i|] eqn:Hi; simpl; [|done].
    intros [= <-]. rewrite Hatom. by apply (wf_intervals _ Hwf).
  - intros iv i'. rewrite lookup_fmap.
    destruct (intervals rt !! iv) as [i|] eqn:Hi; simpl; [|done].
    intros [= <-].
    destruct (wf_period _ Hwf _ _ Hi) as (Hd & Hlo & Hhi & Hdue & Hfired).
    simpl in *. unfold fire. case_decide as Hnow; simpl.
    + rewrite length_app. simpl. repeat split; try lia.
      rewrite Nat.add_1_r, seq_S, fmap_app. simpl.
      rewrite <- Hfired. f_equal. f_equal. lia.
    + repeat split; try done; lia.
Qed.

Lemma wf_step ev w : wf w → wf (step ev w).
Proof.
  destruct ev; simpl.
  - apply (wf_get_atom (FolderAtom depth)).
  - apply (wf_get_atom FileAtom).
  - apply wf_subscribe.
  - apply wf_unsubscribe.
  - apply wf_tick.
Qed.

Lemma wf_run evs w : wf w → wf (run evs w).
Proof.
  revert w. induction evs as [|ev evs IH]; intros w Hwf; [done|].
  simpl. apply IH. by apply wf_step.
Qed.

(** *** Subscribing through the getter *)

Lemma registered_get_atom kind path w a :
  registered a w → registered a (get_atom kind path w).2.
Proof.
  destruct w as [this rt]. intros (p & k & Ha & Ht). simpl in *.
  rewrite get_atom_unfold.
  destruct (atomsMap_of kind this !! path) eqn:E; [by exists p, k|].
  exists p, k. simpl.
  pose proof (is_fresh (dom (atoms rt))) as Hfresh.
  apply not_elem_of_dom in Hfresh.
  split.
  - rewrite lookup_insert_ne; [done|]. congruence.
  - rewrite atomsMap_of_with_atomsMap. case_decide as Hk; [|done].
    subst k. rewrite lookup_insert_ne; [done|]. congruence.
Qed.

Lemma subscribers_registered_step ev w :
  wf w → subscribers_registered w →
  match ev with EvSubscribe a => registered a w | _ => True end →
  subscribers_registered (step ev w).
Proof.
  intros Hwf Hreg Hev. destruct ev as [path depth|path|a|a|]; simpl.
  - change (subscribers_registered (get_atom (FolderAtom depth) path w).2).
    intros a n iv Hs. apply registered_get_atom. apply (Hreg a n iv).
    by rewrite (proj1 (get_atom_runtime (FolderAtom depth) path w)) in Hs.
  - change (subscribers_registered (get_atom FileAtom path w).2).
    intros a n iv Hs. apply registered_get_atom. apply (Hreg a n iv).
    by rewrite (proj1 (get_atom_runtime FileAtom path w)) in Hs.
  - destruct w as [this rt]. intros a' n' iv'. simpl in *.
    destruct (subscribed rt !! a) as [[n iv]|] eqn:E; simpl.
    + destruct (decide (a' = a)) as [->|Hne].
      * intros _. by apply (Hreg a n iv).
      * rewrite lookup_insert_ne by done. apply Hreg.
    + destruct (decide (a' = a)) as [->|Hne].
      * intros _. exact Hev.
      * rewrite lookup_insert_ne by done. apply Hreg.
  - destruct w as [this rt]. unfold unsubscribe.
    destruct (subscribed rt !! a) as [[n iv]|] eqn:E; [|done].
    assert (Hlast : ∀ a' n' iv',
              subscribed
                (onUnmount a iv
                   (this, mkRuntime (atoms rt) (delete a (subscribed rt))
                            (intervals rt) (next_interval rt) (now rt))).2
                !! a' = Some (n', iv') →
              registered a'
                (onUnmount a iv
                   (this, mkRuntime (atoms rt) (delete a (subscribed rt))
                            (intervals rt) (next_interval rt) (now rt)))).
    { intros a' n' iv'.
      destruct (Hreg a n iv E) as (p & k & Ha & Ht). simpl in *.
      rewrite Ha. simpl. intros Hs.
      apply lookup_delete_Some in Hs as [Hne Hs].
      destruct (Hreg a' n' iv' Hs) as (p' & k' & Ha' & Ht').
      exists p', k'. simpl in *. split; [done|].
      rewrite atomsMap_of_with_atomsMap. case_decide as Hk; [|done].
      subst k'. rewrite lookup_delete_ne; [done|].
      intros <-. congruence. }
    destruct n as [|[|n]]; [exact Hlast|exact Hlast|].
    intros a' n' iv'. simpl.
    destruct (decide (a' = a)) as [->|Hne].
    + intros _. exact (Hreg a _ iv E).
    + rewrite lookup_insert_ne by done. apply Hreg.
  - destruct w as [this rt]. intros a n iv Hs. by apply (Hreg a n iv).
Qed.

Lemma subscribers_registered_run evs w :
  wf w → subscribers_registered w → disciplined evs w →
  subscribers_registered (run evs w).
Proof.
  revert w. induction evs as [|ev evs IH]; intros w Hwf Hreg; [done|].
  intros [Hev Hrest]. simpl. apply IH; [by apply wf_step| |done].
  by apply subscribers_registered_step.
Qed.

Lemma subscribers_registered_initial w :
  initial w → subscribers_registered w.
Proof.
  destruct w as [this rt]. intros (_ & _ & _ & Hrt). simpl in *. subst rt.
  intros a n iv Hs. simpl in Hs. by rewrite lookup_empty in Hs.
Qed.

Lemma wf_reachable w : reachable w → wf w.
Proof.
  intros (w0 & evs & Hinit & ->). by apply wf_run, wf_initial.
Qed.

End AtomFacts.

Section AtomClaims.
Context {S : Type}.
Local Open Scope nat_scope.
Implicit Types (w : @World S) (a : nat).

Lemma subscribed_single_interval w a n iv :
  wf w → subscribed w.2 !! a = Some (n, iv) →
  ∀ iv' i', intervals w.2 !! iv' = Some i' → iv_atom i' = a → iv' = iv.
Proof.
  intros Hwf Hs iv' i' Hi' Ha.
  destruct (wf_intervals _ Hwf _ _ Hi') as [_ [n' Hs']].
  rewrite Ha in Hs'. congruence.
Qed.

Lemma unsubscribed_no_interval w a :
  wf w → subscribed w.2 !! a = None →
  ∀ iv i, intervals w.2 !! iv = Some i → iv_atom i ≠ a.
Proof.
  intros Hwf Hs iv i Hi Ha.
  destruct (wf_intervals _ Hwf _ _ Hi) as [_ [n' Hs']].
  rewrite Ha in Hs'. congruence.
Qed.

Lemma unsubscribe_last w a n iv :
  subscribed w.2 !! a = Some (n, iv) → n ≤ 1 →
  (unsubscribe a w).2
  = mkRuntime (atoms w.2) (delete a (subscribed w.2))
      (delete iv (intervals w.2)) (next_interval w.2) (now w.2)
  ∧ ∀ kind path, atoms w.2 !! a = Some (mkAtom path kind) →
      atomsMap_of kind (unsubscribe a w).1 !! path = None.
Proof.
  destruct w as [this rt]. simpl. intros -> Hn.
  assert (Hcase : n = 0 ∨ n = 1) by lia.
  destruct Hcase as [-> | ->]; simpl.
  - destruct (atoms rt !! a) as [[p k]|]; simpl; (split; [done|]);
      [|done].
    intros kind path [= <- <-].
    rewrite atomsMap_of_with_atomsMap, decide_True by done.
    by rewrite lookup_delete_eq.
  - destruct (atoms rt !! a) as [[p k]|]; simpl; (split; [done|]);
      [|done].
    intros kind path [= <- <-].
    rewrite atomsMap_of_with_atomsMap, decide_True by done.
    by rewrite lookup_delete_eq.
Qed.

(** C5, amended: in every state reached from a fresh manager, a call of
    [getFolderAtom] or [getFileAtom] leaves the intervals alone and a
    second call with the same key returns the same atom and changes
    nothing; an atom with subscribers has exactly one interval, one more
    subscriber adds none, and an atom without subscribers has none; when a
    subscriber that is not the last one leaves, the interval and the
    tables stay; when the last one leaves, the interval is cleared, the
    atom's path is removed from the table of its kind, and the next call
    with that key registers an atom that did not exist before.  When the
    consumers subscribe only to atoms that are registered at that moment,
    the subscribers of one key are all on the atom registered for it, with
    its one interval. *)
Theorem atom_entry_lifecycle w0 evs :
  initial w0 →
  let w := run evs w0 in
  (∀ path depth,
     let r := getFolderAtom path depth w in
     getFolderAtom path depth r.2 = r ∧ intervals r.2.2 = intervals w.2)
  ∧ (∀ path,
       let r := getFileAtom path w in
       getFileAtom path r.2 = r ∧ intervals r.2.2 = intervals w.2)
  ∧ (∀ a n iv, subscribed w.2 !! a = Some (n, iv) →
       (∃ i, intervals w.2 !! iv = Some i ∧ iv_atom i = a)
       ∧ (∀ iv' i', intervals w.2 !! iv' = Some i' → iv_atom i' = a →
            iv' = iv)
       ∧ (subscribe a w).1 = w.1
       ∧ intervals (subscribe a w).2 = intervals w.2
       ∧ subscribed (subscribe a w).2 !! a = Some (Datatypes.S n, iv))
  ∧ (∀ a, subscribed w.2 !! a = None →
       ∀ iv i, intervals w.2 !! iv = Some i → iv_atom i ≠ a)
  ∧ (∀ a n iv, subscribed w.2 !! a = Some (Datatypes.S (Datatypes.S n), iv) →
       (unsubscribe a w).1 = w.1
       ∧ intervals (unsubscribe a w).2 = intervals w.2
       ∧ subscribed (unsubscribe a w).2 !! a = Some (Datatypes.S n, iv))
  ∧ (∀ a kind path iv,
       atoms w.2 !! a = Some (mkAtom path kind) →
       subscribed w.2 !! a = Some (1, iv) →
       let w' := unsubscribe a w in
       intervals w'.2 = delete iv (intervals w.2)
       ∧ (∀ iv' i', intervals w'.2 !! iv' = Some i' → iv_atom i' ≠ a)
       ∧ subscribed w'.2 !! a = None
       ∧ atomsMap_of kind w'.1 !! path = None
       ∧ ((get_atom kind path w').1 ∉ dom (atoms w.2))
       ∧ (get_atom kind path w').1 ≠ a
       ∧ atomsMap_of kind (get_atom kind path w').2.1 !! path
         = Some (get_atom kind path w').1)
  ∧ (disciplined evs w0 →
     ∀ a a' n n' iv iv' path kind,
       atoms w.2 !! a = Some (mkAtom path kind) →
       atoms w.2 !! a' = Some (mkAtom path kind) →
       subscribed w.2 !! a = Some (n, iv) →
       subscribed w.2 !! a' = Some (n', iv') →
       a = a' ∧ iv = iv' ∧ atomsMap_of kind w.1 !! path = Some a).
Proof.
  intros Hinit w.
  assert (Hwf : wf w) by by apply wf_run, wf_initial.
  split; [|split; [|split; [|split; [|split; [|split]]]]].
  - intros path depth r. subst r.
    pose proof (get_atom_table (FolderAtom depth) path w) as Ht.
    pose proof (get_atom_runtime (FolderAtom depth) path w) as (_ & Hi & _).
    simpl in Ht, Hi. destruct (getFolderAtom path depth w) as [a w1].
    split; [|done]. by apply (get_atom_registered (FolderAtom depth)).
  - intros path r. subst r.
    pose proof (get_atom_table FileAtom path w) as Ht.
    pose proof (get_atom_runtime FileAtom path w) as (_ & Hi & _).
    simpl in Ht, Hi. destruct (getFileAtom path w) as [a w1].
    split; [|done]. by apply (get_atom_registered FileAtom).
  - intros a n iv Hs. split; [by apply (wf_subscribed _ Hwf a n)|].
    split; [by eapply subscribed_single_interval|].
    destruct w as [this rt]. simpl in *. rewrite Hs. simpl.
    by rewrite lookup_insert_eq.
  - intros a Hs. by apply unsubscribed_no_interval.
  - intros a n iv Hs. destruct w as [this rt]. simpl in *. rewrite Hs.
    simpl. by rewrite lookup_insert_eq.
  - intros a kind path iv Ha Hs w'.
    destruct (unsubscribe_last w a 1 iv Hs) as [Hrt Htab]; [lia|].
    fold w' in Hrt, Htab. specialize (Htab _ _ Ha).
    assert (Hwf' : wf w') by by apply wf_unsubscribe.
    assert (Hnone : subscribed w'.2 !! a = None).
    { rewrite Hrt. simpl. by rewrite lookup_delete_eq. }
    assert (Hfresh : (get_atom kind path w').1 ∉ dom (atoms w.2)).
    { pose proof (get_atom_fresh kind path w' Htab) as Hf.
      by rewrite Hrt in Hf. }
    split; [by rewrite Hrt|].
    split; [by apply unsubscribed_no_interval|].
    split; [done|]. split; [done|]. split; [done|].
    split; [|apply get_atom_table].
    intros Heq. apply Hfresh. rewrite Heq. apply elem_of_dom. by eexists.
  - intros Hdisc a a' n n' iv iv' path kind Ha Ha' Hs Hs'.
    assert (Hreg : subscribers_registered w).
    { apply subscribers_registered_run; [by apply wf_initial| |done].
      by apply subscribers_registered_initial. }
    destruct (Hreg _ _ _ Hs) as (p & k & Hp & Ht).
    destruct (Hreg _ _ _ Hs') as (p' & k' & Hp' & Ht').
    rewrite Ha in Hp. injection Hp as <- <-.
    rewrite Ha' in Hp'. injection Hp' as <- <-.
    assert (a = a') as <- by congruence.
    split; [done|]. split; [congruence|done].
Qed.

Lemma fires_on_period_wf w iv i :
  wf w → intervals w.2 !! iv = Some i → fires_on_period (now w.2) i.
Proof.
  intros Hwf Hi.
  destruct (wf_period _ Hwf _ _ Hi) as (Hd & Hlo & Hhi & Hdue & Hfired).
  assert (Hq : ((now w.2 - iv_start i) / iv_delay i)%N
               = N.of_nat (length (iv_fired i))).
  { rewrite Hd. symmetry.
    apply (N.div_unique _ _ _
             (now w.2 - iv_start i
              - 500 * N.of_nat (length (iv_fired i)))%N); lia. }
  unfold fires_on_period. rewrite Hq, Hd, Nat2N.id.
  repeat split; [lia|done|done].
Qed.

(** C8: in every reachable state every interval, of a folder atom or of
    a file atom, has the delay 500 and has fired at the multiples of 500
    since it was set and at no other time; it is set, with that delay
    and at the current time, when an atom without subscribers is
    subscribed to; no sequence of calls gives any other delay. *)
Theorem refresh_period_fixed w :
  reachable w →
  (∀ iv i, intervals w.2 !! iv = Some i →
     iv_delay i = 500%N ∧ fires_on_period (now w.2) i)
  ∧ (∀ a n iv, subscribed w.2 !! a = Some (n, iv) →
       ∃ i, intervals w.2 !! iv = Some i ∧ iv_atom i = a
            ∧ iv_delay i = 500%N)
  ∧ (∀ a, subscribed w.2 !! a = None →
       ∃ iv, intervals w.2 !! iv = None
             ∧ subscribed (subscribe a w).2 !! a = Some (1, iv)
             ∧ intervals (subscribe a w).2
               = <[iv := mkInterval a 500%N (now w.2) (now w.2 + 500)%N []]>
                   (intervals w.2)).
Proof.
  intros Hreach. pose proof (wf_reachable _ Hreach) as Hwf.
  split; [|split].
  - intros iv i Hi. split; [by apply (wf_period _ Hwf iv)|].
    by eapply fires_on_period_wf.
  - intros a n iv Hs.
    destruct (wf_subscribed _ Hwf _ _ _ Hs) as [_ (i & Hi & Ha)].
    exists i. repeat split; try done. by apply (wf_period _ Hwf iv).
  - intros a Hs. exists (next_interval w.2). split.
    + destruct (intervals w.2 !! next_interval w.2) as [i|] eqn:Hi;
        [|done].
      destruct (wf_intervals _ Hwf _ _ Hi) as [Hlt _]. lia.
    + destruct w as [this rt]. simpl in *. rewrite Hs. simpl.
      by rewrite lookup_insert_eq.
Qed.

End AtomClaims.

(** *** The atoms of a manager over in-memory drives *)

Module AtomExampleFacts.
Import AtomExamples.

Lemma later_reachable : reachable later.
Proof. eexists w0, _. split; [done|reflexivity]. Qed.

(** Subscribing twice sets one interval; when both have left, the
    interval and the table entry are gone and the next call registers
    another atom. *)
Example two_subscribers :
  let w2 := run [EvGetFolderAtom "/docs" shallow; EvSubscribe 0;
                 EvGetFolderAtom "/docs" shallow; EvSubscribe 0] w0 in
  let w4 := run [EvUnsubscribe 0; EvUnsubscribe 0] w2 in
  (getFolderAtom "/docs" shallow w2).1 = 0
  ∧ map_to_list (intervals w2.2) = [(0, mkInterval 0 500%N 0%N 500%N [])]
  ∧ subscribed w2.2 !! 0 = Some (2, 0)
  ∧ intervals w4.2 = ∅
  ∧ shallowAtoms w4.1 = ∅
  ∧ (getFolderAtom "/docs" shallow w4).1 = 1.
Proof. by vm_compute. Qed.

End AtomExampleFacts.

(** [atom_entry_lifecycle] when the second of two consumers leaves. *)
Lemma atom_entry_lifecycle_witness :
  let w := AtomExamples.one_left in
  let w' := unsubscribe 0 w in
  (intervals w'.2 = delete 0 (intervals w.2)
   ∧ (∀ iv' i', intervals w'.2 !! iv' = Some i' → iv_atom i' ≠ 0)
   ∧ subscribed w'.2 !! 0 = None
   ∧ atomsMap_of (FolderAtom shallow) w'.1 !! "/docs" = None
   ∧ ((get_atom (FolderAtom shallow) "/docs" w').1 ∉ dom (atoms w.2))
   ∧ (get_atom (FolderAtom shallow) "/docs" w').1 ≠ 0
   ∧ atomsMap_of (FolderAtom shallow)
       (get_atom (FolderAtom shallow) "/docs" w').2.1 !! "/docs"
     = Some (get_atom (FolderAtom shallow) "/docs" w').1)
  ∧ ∀ a a' n n' iv iv' path kind,
      atoms w.2 !! a = Some (mkAtom path kind) →
      atoms w.2 !! a' = Some (mkAtom path kind) →
      subscribed w.2 !! a = Some (n, iv) →
      subscribed w.2 !! a' = Some (n', iv') →
      a = a' ∧ iv = iv' ∧ atomsMap_of kind w.1 !! path = Some a.
Proof.
  intros w w'.
  assert (Hinit : initial AtomExamples.w0) by (repeat split; reflexivity).
  pose proof (atom_entry_lifecycle AtomExamples.w0 AtomExamples.two_then_one
                Hinit) as (_ & _ & _ & _ & _ & Hlast & Hkey).
  split.
  - apply (Hlast 0 (FolderAtom shallow) "/docs" 0); reflexivity.
  - apply Hkey. repeat split.
    + exists "/docs", (FolderAtom shallow). split; reflexivity.
    + exists "/docs", (FolderAtom shallow). split; reflexivity.
Defined.

(** C5 as stated fails for a consumer that kept its atom: it subscribes,
    leaves, which removes the entry, and subscribes again; a call with the
    same key then registers a second atom, and the two subscribers of the
    key have an atom and an interval each. *)
Lemma atom_entry_kept_atom_counterexample :
  let w := AtomExamples.stale in
  (getFolderAtom "/docs" shallow
     (run AtomExamples.kept_atom AtomExamples.w0)).1 = 1
  ∧ subscribed (run AtomExamples.kept_atom AtomExamples.w0).2 !! 0
    = Some (1, 1)
  ∧ atoms w.2 !! 0 = Some (mkAtom "/docs" (FolderAtom shallow))
  ∧ atoms w.2 !! 1 = Some (mkAtom "/docs" (FolderAtom shallow))
  ∧ subscribed w.2 !! 0 = Some (1, 1)
  ∧ subscribed w.2 !! 1 = Some (1, 2)
  ∧ intervals w.2 !! 1 = Some (mkInterval 0 500%N 0%N 500%N [])
  ∧ intervals w.2 !! 2 = Some (mkInterval 1 500%N 0%N 500%N []).
Proof. by vm_compute. Qed.

(** [refresh_period_fixed] 1200 milliseconds after a subscription: the
    interval fired at 500 and at 1000 and is due at 1500. *)
Lemma refresh_period_fixed_witness :
  let i := mkInterval 0 500%N 0%N 1500%N [500%N; 1000%N] in
  intervals AtomExamples.later.2 !! 0 = Some i
  ∧ iv_delay i = 500%N
  ∧ fires_on_period 1200%N i.
Proof.
  intros i.
  assert (Hi : intervals AtomExamples.later.2 !! 0 = Some i)
    by (vm_compute; reflexivity).
  split; [exact Hi|].
  exact (proj1 (refresh_period_fixed AtomExamples.later
                  AtomExampleFacts.later_reachable) 0 i Hi).
Defined.

(** * Further properties of the manager *)

Section WriteFacts.
Context {S : Type} `{Drive S}.
Implicit Types (this : FsManager S) (path : string).






End WriteFacts.

Section MountPathFacts.
Context {S : Type} `{Drive S}.
Implicit Types (this : FsManager S) (path : string).

Lemma split_prefixed_mount seg0 name rest :
  Js.free_of "/" seg0 → Js.free_of "/" name →
  Js.split "/" (seg0 ++ "/mnt/" ++ name ++ "/" ++ rest)
  = seg0 :: "mnt" :: name :: Js.split "/" rest.
Proof.
  intros H0 Hn.
  change (seg0 ++ "/mnt/" ++ name ++ "/" ++ rest)
    with (seg0 ++ String "/" ("mnt" ++ String "/" (name ++ String "/" rest))).
  rewrite !JsFacts.split_app.
  by rewrite (JsFacts.split_free _ seg0), (JsFacts.split_free _ name).
Qed.

(** X4: what follows ["/mnt/<name>/"] reaches the mounted drive as it
    was written, doubled and trailing slashes included, behind one ["/"];
    the segment before the first ["/"] is not looked at, so a path that
    does not start with ["/"] is routed to the drive as well. *)
Theorem mount_suffix_verbatim this seg0 name rest drive :
  Js.free_of "/" seg0 → Js.free_of "/" name → name ≠ "" →
  mountedDrives this !! name = Some drive →
  delegates this (seg0 ++ "/mnt/" ++ name ++ "/" ++ rest) drive
    (with_mounted this name) ("/" ++ rest).
Proof.
  intros H0 Hn Hne Hm.
  pose proof (split_prefixed_mount seg0 name rest H0 Hn) as Hsplit.
  assert (Hrel : getRelativePath (seg0 ++ "/mnt/" ++ name ++ "/" ++ rest)
                 = "/" ++ rest).
  { unfold getRelativePath. rewrite Hsplit.
    change (drop 3 _) with (Js.split "/" rest).
    change "/" with (String "/"%char "") at 1 2.
    by rewrite JsFacts.join_split. }
  assert (Hgm : getMountedDriveForPath this
                  (seg0 ++ "/mnt/" ++ name ++ "/" ++ rest)
                = ADrive name drive).
  { apply getMountedDriveForPath_ADrive. unfold mount_prefix.
    rewrite Hsplit. by repeat split. }
  pose proof (delegates_mounted _ _ _ _ Hgm) as Hd.
  by rewrite Hrel in Hd.
Qed.




(** X16: a path ["/mnt/<name>/..."] whose name is not mounted but is the
    name of a member of [Object.prototype] is served by no drive: each of
    the eight operations is rejected with a [TypeError] before any drive
    is called, whatever the stores hold; once a drive is mounted under
    that name, the path is served by that drive as any other. *)
Theorem prototype_member_is_no_drive this path name :
  prototype_prefix this path name →
  (∀ content,
     writeFile path content this
     = Rejected (not_a_function "mountedDrive.writeFile"))
  ∧ createFolder path this
    = Rejected (not_a_function "mountedDrive.createFolder")
  ∧ delete_ path this = Rejected (not_a_function "mountedDrive.delete")
  ∧ (∀ item,
       insert_ path item this
       = Rejected (not_a_function "mountedDrive.insert"))
  ∧ (∀ newPath,
       move path newPath this
       = Rejected (not_a_function "mountedDrive.move"))
  ∧ (∀ depth,
       getItem path depth this
       = Rejected (not_a_function "mountedDrive.getItem")
       ∧ getFile path depth this
         = Rejected (not_a_function "mountedDrive.getFile")
       ∧ getFolder path depth this
         = Rejected (not_a_function "mountedDrive.getFolder"))
  ∧ (∀ drive,
       delegates (with_mounted this name drive) path drive
         (with_mounted (with_mounted this name drive) name)
         (getRelativePath path)).
Proof.
  intros Hp. pose proof Hp as (H1 & H2 & Hm & Hi).
  assert (Hroot : path ≠ "/") by (intros ->; discriminate H1).
  apply getMountedDriveForPath_NotADrive in Hp.
  split; [intros content; unfold writeFile; by rewrite Hp|].
  split; [unfold createFolder; by rewrite Hp|].
  split; [unfold delete_; by rewrite Hp|].
  split; [intros item; unfold insert_; by rewrite Hp|].
  split; [intros newPath; unfold move; by rewrite Hp|].
  split.
  { intros depth. unfold getItem, getFile, getFolder.
    by rewrite decide_False, Hp by done. }
  intros drive. apply delegates_mounted, getMountedDriveForPath_ADrive.
  repeat split; try done.
  - intros ->. by vm_compute in Hi.
  - simpl. by rewrite lookup_insert_eq.
Qed.

End MountPathFacts.


(** [mount_suffix_verbatim] for a path with a drive letter in front and
    doubled and trailing slashes behind the drive name. *)
Lemma mount_suffix_verbatim_witness :
  delegates RootExamples.this "C:/mnt/X/a//b/" RootExamples.x
    (with_mounted RootExamples.this "X") "/a//b/".
Proof.
  apply (mount_suffix_verbatim RootExamples.this "C:" "X" "a//b/"
           RootExamples.x).
  - repeat split; discriminate.
  - repeat split; discriminate.
  - discriminate.
  - reflexivity.
Defined.



(** [prototype_member_is_no_drive] at ["/mnt/toString/a.txt"], with the
    drive ["X"] mounted and then with a drive mounted as ["toString"]. *)
Lemma prototype_member_is_no_drive_witness :
  getFile "/mnt/toString/a.txt" deep RootExamples.this
  = Rejected (TypeError "mountedDrive.getFile is not a function")
  ∧ getFile "/mnt/toString/a.txt" deep
      (with_mounted RootExamples.this "toString" RootExamples.x)
    = Ok (Some (DeepFile "a.txt" (Text "hi"))).
Proof.
  assert (Hp : prototype_prefix RootExamples.this "/mnt/toString/a.txt"
                 "toString") by (repeat split; reflexivity).
  pose proof (prototype_member_is_no_drive RootExamples.this
                "/mnt/toString/a.txt" "toString" Hp)
    as (_ & _ & _ & _ & _ & Hread & Hmounted).
  split.
  - exact (proj1 (proj2 (Hread deep))).
  - destruct (Hmounted RootExamples.x) as (_ & _ & _ & _ & _ & Hfile & _).
    rewrite Hfile. reflexivity.
Defined.

(** * Further properties of the live-view atoms *)

Section AtomTableFacts.
Context {S : Type}.
Local Open Scope nat_scope.
Implicit Types (w : @World S) (a : nat).

(** X7: an atom is registered under one key only, the one it was made
    for: no atom is in two tables or under two paths; and for paths that
    are not names of members of [Object.prototype], the shallow view, the
    deep view and the file view of one path never get the same atom from
    the getters, nor do two paths. *)
Theorem atom_keys_distinct w0 evs :
  initial w0 →
  let w := run evs w0 in
  (∀ kind path kind' path' a,
     atomsMap_of kind w.1 !! path = Some a →
     atomsMap_of kind' w.1 !! path' = Some a →
     kind = kind' ∧ path = path'
     ∧ atoms w.2 !! a = Some (mkAtom path kind))
  ∧ (∀ kind path kind' path',
       Js.inherits path = false → Js.inherits path' = false →
       (kind, path) ≠ (kind', path') →
       (get_atom kind path w).1
       ≠ (get_atom kind' path' (get_atom kind path w).2).1).
Proof.
  intros Hinit w.
  assert (Hwf : wf w) by by apply wf_run, wf_initial.
  split.
  - intros kind path kind' path' a Ht Ht'.
    apply (wf_tables _ Hwf) in Ht. apply (wf_tables _ Hwf) in Ht'.
    rewrite Ht in Ht'. by injection Ht' as <- <-.
  - intros kind path kind' path' _ _ Hne Heq.
    pose proof (wf_get_atom kind path w Hwf) as Hwf1.
    pose proof (wf_get_atom kind' path' _ Hwf1) as Hwf2.
    pose proof (get_atom_table kind' path' (get_atom kind path w).2) as Ht2.
    pose proof (get_atom_table kind path w) as Ht1.
    apply (wf_tables _ Hwf1) in Ht1. apply (wf_tables _ Hwf2) in Ht2.
    assert (Hkeep : atoms (get_atom kind' path'
                             (get_atom kind path w).2).2.2
                      !! (get_atom kind path w).1
                    = Some (mkAtom path kind)).
    { destruct (get_atom kind path w) as [a1 [this1 rt1]]. simpl in *.
      rewrite get_atom_unfold.
      destruct (atomsMap_of kind' this1 !! path'); [done|]. simpl.
      rewrite lookup_insert_ne; [done|].
      intros Hf. pose proof (is_fresh (dom (atoms rt1))) as Hfresh.
      rewrite Hf in Hfresh. apply Hfresh, elem_of_dom. by eexists. }
    rewrite Heq in Hkeep. rewrite Hkeep in Ht2.
    injection Ht2 as -> ->. done.
Qed.

(** X8: an entry leaves its table only when an atom made for its key
    loses its last subscriber, and the key is then without an entry;
    getter calls, subscriptions, ticks and every other unsubscription keep
    every entry.  The atom that loses its last subscriber need not be the
    one of the entry: it can be an earlier atom of that key that a
    consumer kept.  It is the one of the entry when the consumers
    subscribe only to atoms that are registered at that moment. *)
Theorem entry_removed_only_on_last_unsubscribe w0 evs ev kind path a :
  initial w0 →
  let w := run evs w0 in
  atomsMap_of kind w.1 !! path = Some a →
  atomsMap_of kind (step ev w).1 !! path ≠ Some a →
  ∃ b iv,
    ev = EvUnsubscribe b
    ∧ atoms w.2 !! b = Some (mkAtom path kind)
    ∧ subscribed w.2 !! b = Some (1, iv)
    ∧ atomsMap_of kind (step ev w).1 !! path = None
    ∧ (disciplined evs w0 → b = a).
Proof.
  intros Hinit w Ht Hgone.
  assert (Hwf : wf w) by by apply wf_run, wf_initial.
  assert (Hget : ∀ k p, atomsMap_of kind (get_atom k p w).2.1 !! path
                        = Some a).
  { intros k p. destruct w as [this rt]. rewrite get_atom_unfold.
    simpl in *.
    destruct (atomsMap_of k this !! p) eqn:E; [done|]. simpl.
    rewrite atomsMap_of_with_atomsMap. case_decide as Hk; [|done].
    subst k. rewrite lookup_insert_ne; [done|]. congruence. }
  assert (Hown : ∀ b iv,
            atoms w.2 !! b = Some (mkAtom path kind) →
            subscribed w.2 !! b = Some (1, iv) →
            disciplined evs w0 → b = a).
  { intros b iv Hb Hs Hdisc.
    assert (Hreg : subscribers_registered w).
    { apply subscribers_registered_run; [by apply wf_initial| |done].
      by apply subscribers_registered_initial. }
    destruct (Hreg _ _ _ Hs) as (p & k & Hp & Hk).
    rewrite Hb in Hp. injection Hp as <- <-. congruence. }
  destruct ev as [p depth|p|b|b|]; simpl in Hgone.
  - by destruct Hgone; apply (Hget (FolderAtom depth) p).
  - by destruct Hgone; apply (Hget FileAtom p).
  - destruct Hgone. destruct w as [this rt]. simpl in *.
    by destruct (subscribed rt !! b) as [[n iv]|].
  - pose proof (Hown b) as Hownb.
    destruct w as [this rt]. simpl in *.
    destruct (subscribed rt !! b) as [[n iv]|] eqn:Es; [|done].
    destruct (wf_subscribed _ Hwf _ _ _ Es) as [Hn _].
    destruct n as [|[|n]]; [lia| |done].
    simpl in Hgone.
    destruct (atoms rt !! b) as [[p k]|] eqn:Eb; [|done].
    simpl in Hgone. rewrite atomsMap_of_with_atomsMap in Hgone.
    case_decide as Hk; [|done]. subst k.
    destruct (decide (p = path)) as [->|Hp].
    + exists b, iv. split; [done|]. split; [done|]. split; [done|].
      split; [|by apply (Hownb iv)].
      simpl. rewrite ?Es, ?Eb. simpl.
      rewrite atomsMap_of_with_atomsMap, decide_True by done.
      by rewrite lookup_delete_eq.
    + by rewrite lookup_delete_ne in Hgone.
  - destruct Hgone. by destruct w as [this rt].
Qed.

End AtomTableFacts.

(** The clean-up of a kept atom unregisters the atom that took its
    place. *)
Example kept_atom_unregisters_successor :
  shallowAtoms AtomExamples.stale.1 !! "/docs" = Some 1
  ∧ shallowAtoms (unsubscribe 0 AtomExamples.stale).1 !! "/docs" = None
  ∧ subscribed (unsubscribe 0 AtomExamples.stale).2 !! 1 = Some (1, 2).
Proof. by vm_compute. Qed.

(** [atom_keys_distinct] for the three views of one path. *)
Lemma atom_keys_distinct_witness :
  let w := AtomExamples.one_left in
  (get_atom (FolderAtom shallow) "/docs" w).1
  ≠ (get_atom (FolderAtom deep) "/docs"
       (get_atom (FolderAtom shallow) "/docs" w).2).1
  ∧ (get_atom (FolderAtom deep) "/docs" w).1
    ≠ (get_atom FileAtom "/docs"
         (get_atom (FolderAtom deep) "/docs" w).2).1.
Proof.
  assert (Hinit : initial AtomExamples.w0) by (repeat split; reflexivity).
  pose proof (proj2 (atom_keys_distinct AtomExamples.w0
                       AtomExamples.two_then_one Hinit)) as Hd.
  split; apply Hd; (reflexivity || discriminate).
Defined.

(** [entry_removed_only_on_last_unsubscribe] when the last consumer of
    ["/docs"] leaves. *)
Lemma entry_removed_only_on_last_unsubscribe_witness :
  ∃ b iv,
    EvUnsubscribe 0 = EvUnsubscribe b
    ∧ atoms AtomExamples.one_left.2 !! b
      = Some (mkAtom "/docs" (FolderAtom shallow))
    ∧ subscribed AtomExamples.one_left.2 !! b = Some (1, iv)
    ∧ atomsMap_of (FolderAtom shallow)
        (step (EvUnsubscribe 0) AtomExamples.one_left).1 !! "/docs"
      = None
    ∧ (disciplined AtomExamples.two_then_one AtomExamples.w0 → b = 0).
Proof.
  assert (Hinit : initial AtomExamples.w0) by (repeat split; reflexivity).
  apply (entry_removed_only_on_last_unsubscribe AtomExamples.w0
           AtomExamples.two_then_one (EvUnsubscribe 0)
           (FolderAtom shallow) "/docs" 0 Hinit).
  - reflexivity.
  - by vm_compute.
Defined.

(** * Properties of the window reducer *)

Module WindowFacts.
Import Window.

Section Generic.
Context {R : Type} `{Number R}.
Implicit Types (s : WindowState R) (a : WindowAction R).

Lemma handleResize_frame s a :
  status (handleResize s a) = status s
  ∧ title (handleResize s a) = title s
  ∧ icon (handleResize s a) = icon s
  ∧ program (handleResize s a) = program s
  ∧ id (handleResize s a) = id s.
Proof. by destruct a as [| | | |[] ? ?|]. Qed.

Lemma windowReducer_size s a :
  (∀ side dx dy, a ≠ RESIZE side dx dy) →
  size (windowReducer s a) = size s.
Proof.
  intros Hne. destruct a as [| | |dx dy|side dx dy|]; simpl; try done.
  - by destruct (status s).
  - by destruct (Hne side dx dy).
Qed.

(** X10: a window that is maximized or minimized ignores every [MOVE];
    a normal one adds the deltas to its position, one after the other,
    and changes nothing else. *)
Theorem moves_accumulate s (deltas : list (R * R)) :
  let s' := dispatched s ((λ d, MOVE d.1 d.2) <$> deltas) in
  (status s ≠ normal → s' = s)
  ∧ (status s = normal →
       s' = with_pos s
              (mkPos (foldl plus (x (pos s)) deltas.*1)
                     (foldl plus (y (pos s)) deltas.*2))).
Proof.
  revert s. induction deltas as [|[dx dy] deltas IH]; intros s s'.
  - split; [done|]. intros _. by destruct s as [? [] ? ? ? ? ?].
  - subst s'. unfold dispatched in *. simpl. split.
    + intros Hst. destruct (status s) eqn:E; try done.
      * apply IH. by rewrite E.
      * apply IH. by rewrite E.
    + intros Hst. rewrite Hst.
      rewrite (proj2 (IH _)) by done. by destruct s as [? [] ? ? ? ? ?].
Qed.

(** X11: the two toggles and [RESTORE] change the status only, and a
    toggle does not remember the status it replaced: minimizing a
    maximized window and toggling again leaves it normal, and maximizing
    a minimized window and toggling again leaves it normal. *)
Theorem toggle_twice s :
  windowReducer (windowReducer s TOGGLE_MINIMIZE) TOGGLE_MINIMIZE
  = with_status s match status s with
                  | maximized => normal
                  | st => st
                  end
  ∧ windowReducer (windowReducer s TOGGLE_MAXIMIZE) TOGGLE_MAXIMIZE
    = with_status s match status s with
                    | minimized => normal
                    | st => st
                    end
  ∧ (∀ a, a = TOGGLE_MINIMIZE ∨ a = TOGGLE_MAXIMIZE ∨ a = RESTORE →
       windowReducer (windowReducer s a) RESTORE = with_status s normal).
Proof.
  split; [|split].
  - by destruct s as [[] ? ? ? ? ? ?].
  - by destruct s as [[] ? ? ? ? ? ?].
  - intros a [->|[->| ->]]; by destruct s as [[] ? ? ? ? ? ?].
Qed.

(** X12: what an action can change: the icon is never changed; title,
    program and id only by [INIT], which changes nothing else; the status
    only by the toggles and [RESTORE]; the size only by [RESIZE]; the
    position only by [MOVE] and [RESIZE].  A [RESIZE] is applied in every
    status. *)
Theorem action_frame s a :
  icon (windowReducer s a) = icon s
  ∧ ((∀ t p i, a ≠ INIT t p i) →
       title (windowReducer s a) = title s
       ∧ program (windowReducer s a) = program s
       ∧ id (windowReducer s a) = id s)
  ∧ ((a ≠ TOGGLE_MAXIMIZE ∧ a ≠ TOGGLE_MINIMIZE ∧ a ≠ RESTORE) →
       status (windowReducer s a) = status s)
  ∧ ((∀ side dx dy, a ≠ RESIZE side dx dy) →
       size (windowReducer s a) = size s)
  ∧ ((∀ side dx dy, a ≠ RESIZE side dx dy) → (∀ dx dy, a ≠ MOVE dx dy) →
       pos (windowReducer s a) = pos s)
  ∧ (∀ side dx dy, a = RESIZE side dx dy →
       size (windowReducer s a) = clampSize (size (handleResize s a))
       ∧ pos (windowReducer s a) = pos (handleResize s a)).
Proof.
  split; [|split; [|split; [|split; [|split]]]].
  - destruct a as [| | |dx dy|side dx dy|]; simpl; try done.
    + by destruct (status s).
    + by destruct side.
  - intros Hne. destruct a as [| | |dx dy|side dx dy|t p i]; simpl;
      try done.
    + by destruct (status s).
    + by destruct side.
    + by destruct (Hne t p i).
  - intros (H1 & H2 & H3).
    destruct a as [| | |dx dy|side dx dy|t p i]; simpl; try congruence.
    + by destruct (status s) eqn:E.
    + by destruct side.
  - apply windowReducer_size.
  - intros Hr Hm. destruct a as [| | |dx dy|side dx dy|t p i]; simpl;
      try done.
    + by destruct (Hm dx dy).
    + by destruct (Hr side dx dy).
  - by intros side dx dy ->.
Qed.

(** X13: on a window of height ["auto"], a drag of the left or right edge
    keeps ["auto"]; a drag of any other edge or corner replaces it by a
    number, computed from 0 and not from the height on screen. *)
Theorem resize_auto_height s side dx dy :
  height (size s) = auto →
  height (size (windowReducer s (RESIZE side dx dy)))
  = match side with
    | SideLeft | SideRight => auto
    | SideTop | SideTopLeft | SideTopRight =>
        px (Math_max (plus (lit 0) (opp dy)) (lit 100))
    | SideBottom | SideBottomLeft | SideBottomRight =>
        px (Math_max (plus (lit 0) dy) (lit 100))
    end.
Proof.
  intros Hauto. destruct side; simpl; unfold height_or_zero;
    by rewrite Hauto.
Qed.

End Generic.

Section Ordered.
Context {R : Type} `{NumberOrder R}.
Implicit Types (s : WindowState R) (a : WindowAction R).

Lemma clampSize_floor (sz : Size R) :
  (match height sz with auto => True | px _ => True end) →
  size_floor (clampSize sz).
Proof.
  intros _. unfold size_floor, clampSize. simpl. split.
  - apply Math_max_ge.
  - destruct (height sz); [done|]. apply Math_max_ge.
Qed.

(** X9: a [RESIZE] leaves the width at 300 or more and the height
    ["auto"] or at 100 or more, whatever the state before; so does every
    state of a window of [windowAtomFamily], whatever was dispatched to
    it. *)
Theorem size_never_below_minimum s side dx dy id actions :
  size_floor (size (windowReducer s (RESIZE side dx dy)))
  ∧ size_floor (size (dispatched (windowAtomFamily id) actions)).
Proof.
  split; [by apply clampSize_floor; destruct (height _)|].
  assert (Hinv : ∀ (acts : list (WindowAction R)) st,
            size_floor (size st) → size_floor (size (dispatched st acts))).
  { induction acts as [|a acts IH]; intros st Hst; [done|].
    unfold dispatched in *. simpl. apply IH.
    destruct a as [| | |mx my|sd rx ry|]; simpl; try done.
    - by destruct (status st).
    - by apply clampSize_floor; destruct (height _). }
  apply Hinv. split; [apply initial_width_ge|done].
Qed.

End Ordered.

#[global] Instance Z_order : NumberOrder Z.
Proof. by refine {| le := Z.le |}; simpl; lia. Defined.

Section Pixels.
Local Open Scope Z_scope.
Implicit Types (s : WindowState Z).

(** X14: on integer pixels of magnitude at most 2^52, where the sums
    and differences of the source are exact, a drag of the left edge moves
    the window's left side with the pointer even when the width is held at
    the minimum: the right edge stays where it was as long as the new
    width is 300 or more, and is pushed right by the shortfall otherwise.
    The top edge does the same to the bottom edge, with the minimum 100.
    Every number computed on the way has magnitude at most 2^53. *)
Theorem clamped_resize_moves_far_edge s dx dy :
  safe_integer (x (pos s)) → safe_integer (y (pos s)) →
  safe_integer (width (size s)) →
  (∀ h, height (size s) = px h → safe_integer h) →
  safe_integer dx → safe_integer dy →
  let l := windowReducer s (RESIZE SideLeft dx dy) in
  x (pos l) = x (pos s) + dx
  ∧ width (size l) = Z.max (width (size s) - dx) 300
  ∧ exact_integer (x (pos l)) ∧ exact_integer (width (size s) - dx)
  ∧ exact_integer (width (size l))
  ∧ (300 ≤ width (size s) - dx →
       x (pos l) + width (size l) = x (pos s) + width (size s))
  ∧ (width (size s) - dx < 300 →
       x (pos l) + width (size l)
       = x (pos s) + width (size s) + (300 - (width (size s) - dx)))
  ∧ ∀ h, height (size s) = px h →
      let t := windowReducer s (RESIZE SideTop dx dy) in
      ∃ h', height (size t) = px h'
        ∧ h' = Z.max (h - dy) 100
        ∧ y (pos t) = y (pos s) + dy
        ∧ exact_integer (y (pos t)) ∧ exact_integer (h - dy)
        ∧ exact_integer h'
        ∧ (100 ≤ h - dy → y (pos t) + h' = y (pos s) + h)
        ∧ (h - dy < 100 →
             y (pos t) + h' = y (pos s) + h + (100 - (h - dy))).
Proof.
  destruct s as [st [px0 py0] [w hh] ? ? ? ?]. simpl.
  unfold MIN_WINDOW_SIZE_width, MIN_WINDOW_SIZE_height, safe_integer,
    exact_integer. simpl.
  intros Hx Hy Hw Hh Hdx Hdy.
  split; [lia|]. split; [lia|]. split; [lia|]. split; [lia|].
  split; [lia|]. split; [lia|]. split; [lia|].
  intros h ->. specialize (Hh h eq_refl). unfold height_or_zero. simpl.
  exists (Z.max (h - dy) 100). split; [f_equal; lia|].
  repeat split; lia.
Qed.

(** X15: on integer pixels and a size that is not below the minimum, a
    corner drag is the drag of its two edges, in either order. *)
Theorem corner_resize_is_two_edge_resizes s corner h v dx dy :
  edges_of corner = Some (h, v) →
  size_floor (size s) →
  windowReducer s (RESIZE corner dx dy)
  = windowReducer (windowReducer s (RESIZE h dx dy)) (RESIZE v dx dy)
  ∧ windowReducer s (RESIZE corner dx dy)
    = windowReducer (windowReducer s (RESIZE v dx dy)) (RESIZE h dx dy).
Proof.
  intros Hedges [Hw Hh].
  destruct s as [st [px0 py0] [w hh] ? ? ? ?]. simpl in *.
  destruct corner; simpl in Hedges; try done;
    injection Hedges as <- <-;
    unfold windowReducer, handleResize, clampSize, with_size, with_pos,
      height_or_zero, MIN_WINDOW_SIZE_width, MIN_WINDOW_SIZE_height;
    simpl; destruct hh as [|h0]; simpl in *;
    split;
    repeat match goal with
           | |- mkWindowState _ _ _ _ _ _ _ = _ => f_equal
           | |- mkSize _ _ = _ => f_equal
           | |- mkPos _ _ = _ => f_equal
           | |- px _ = px _ => f_equal
           end; lia.
Qed.

End Pixels.

End WindowFacts.

(** Below the minimum the two differ: the edge drag clamps a height of 50
    to 100 before the other edge is dragged. *)
Example corner_resize_below_minimum :
  let s := Window.with_size Window.sample
             (Window.mkSize 500%Z (Window.px 50%Z)) in
  Window.windowReducer s (Window.RESIZE Window.SideBottomRight 0 0)%Z
  = Window.windowReducer
      (Window.windowReducer s (Window.RESIZE Window.SideRight 0 0)%Z)
      (Window.RESIZE Window.SideBottom 0 0)%Z
  ∧ Window.windowReducer s (Window.RESIZE Window.SideBottomRight 0 30)%Z
    ≠ Window.windowReducer
        (Window.windowReducer s (Window.RESIZE Window.SideRight 0 30)%Z)
        (Window.RESIZE Window.SideBottom 0 30)%Z.
Proof. split; by vm_compute. Qed.

(** [size_never_below_minimum] on integer pixels: a window shrunk by far
    more than its size. *)
Lemma size_never_below_minimum_witness :
  Window.size_floor
    (Window.size
       (Window.dispatched (R := Z) (Window.windowAtomFamily "w1")
          [Window.RESIZE Window.SideTopLeft 5000 5000;
           Window.MOVE 3 4])%Z).
Proof.
  exact (proj2 (WindowFacts.size_never_below_minimum (R := Z)
                  Window.sample Window.SideLeft 0%Z 0%Z "w1" _)).
Defined.

(** [moves_accumulate] on a normal and on a minimized window. *)
Lemma moves_accumulate_witness :
  Window.dispatched Window.sample
    [Window.MOVE 1 2; Window.MOVE 10 20]%Z
  = Window.with_pos Window.sample (Window.mkPos 51 82)%Z
  ∧ Window.dispatched (Window.with_status Window.sample Window.minimized)
      [Window.MOVE 1 2; Window.MOVE 10 20]%Z
    = Window.with_status Window.sample Window.minimized.
Proof.
  split.
  - exact (proj2 (WindowFacts.moves_accumulate Window.sample
                    [(1, 2); (10, 20)]%Z) eq_refl).
  - apply (proj1 (WindowFacts.moves_accumulate
                    (Window.with_status Window.sample Window.minimized)
                    [(1, 2); (10, 20)]%Z)).
    discriminate.
Defined.

(** [toggle_twice]: a maximized window that is minimized and restored. *)
Lemma toggle_twice_witness :
  Window.windowReducer
    (Window.windowReducer
       (Window.with_status Window.sample Window.maximized)
       Window.TOGGLE_MINIMIZE)
    Window.RESTORE
  = Window.with_status Window.sample Window.normal.
Proof.
  apply (proj2 (proj2 (WindowFacts.toggle_twice
                         (Window.with_status Window.sample
                            Window.maximized)))).
  by left.
Defined.

(** [action_frame] for a [MOVE]: title, program, id, status and size stay. *)
Lemma action_frame_witness :
  let s' := Window.windowReducer Window.sample (Window.MOVE 1 2)%Z in
  (Window.title s' = "Notes" ∧ Window.program s' = Window.ProgramRun
   ∧ Window.id s' = "w1")
  ∧ Window.status s' = Window.normal
  ∧ Window.size s' = Window.size Window.sample.
Proof.
  intros s'.
  destruct (WindowFacts.action_frame Window.sample (Window.MOVE 1 2)%Z)
    as (_ & Hinit & Hstatus & Hsize & _).
  split; [by apply Hinit|]. split; [by apply Hstatus|]. by apply Hsize.
Defined.

(** [resize_auto_height] on a fresh window: a drag of the bottom edge by
    nothing sets the height to 100. *)
Lemma resize_auto_height_witness :
  Window.height
    (Window.size
       (Window.windowReducer (R := Z) (Window.windowAtomFamily "w1")
          (Window.RESIZE Window.SideBottom 0 0)%Z))
  = Window.px 100%Z.
Proof.
  rewrite (WindowFacts.resize_auto_height (R := Z)
             (Window.windowAtomFamily "w1") Window.SideBottom 0%Z 0%Z);
    reflexivity.
Defined.

(** [clamped_resize_moves_far_edge]: the left edge dragged 300 to the
    right on a window 500 wide. *)
Lemma clamped_resize_moves_far_edge_witness :
  let l := Window.windowReducer Window.sample
             (Window.RESIZE Window.SideLeft 300 0)%Z in
  (Window.x (Window.pos l) + Window.width (Window.size l)
   = Window.x (Window.pos Window.sample)
     + Window.width (Window.size Window.sample) + 100)%Z.
Proof.
  intros l.
  assert (Hsafe : ∀ z, (0 ≤ z ≤ 500)%Z → Window.safe_integer z)
    by (unfold Window.safe_integer; lia).
  refine (proj1 (proj2 (proj2 (proj2 (proj2 (proj2 (proj2
           (WindowFacts.clamped_resize_moves_far_edge Window.sample
              300%Z 0%Z _ _ _ _ _ _))))))) _);
    try (apply Hsafe; simpl; lia).
  - intros h [= <-]. apply Hsafe. lia.
  - reflexivity.
Defined.

(** [corner_resize_is_two_edge_resizes] for the top left corner. *)
Lemma corner_resize_is_two_edge_resizes_witness :
  Window.windowReducer Window.sample
    (Window.RESIZE Window.SideTopLeft 30 (-20))%Z
  = Window.windowReducer
      (Window.windowReducer Window.sample
         (Window.RESIZE Window.SideLeft 30 (-20))%Z)
      (Window.RESIZE Window.SideTop 30 (-20))%Z.
Proof.
  apply (WindowFacts.corner_resize_is_two_edge_resizes Window.sample
           Window.SideTopLeft Window.SideLeft Window.SideTop).
  - reflexivity.
  - split; simpl; lia.
Defined.
